(** * ServerSocket: the per-connection reader and writer workers

    A shallow embedding of [ServerSocket.py].  The two worker functions
    [read] and [write] are modelled as functions from the behaviour of the
    socket (what each call on [conn] returns or raises) to the sequence of
    calls and log lines the worker produces.  The parts of the Python
    runtime they rely on ([bytes.decode], [str.strip], [str.split],
    exception classes, [json.loads], [json.dumps]) are modelled first.

    Conventions of the model:
    - a worker runs against a world that answers its socket calls; the
      results of [recv] (of [send]) are a list, and a worker that has used
      it up is blocked in that call;
    - the trace lists every call in the order it is made, whether it
      returns or raises; [print] is an event of the trace and always
      returns;
    - the reader takes the JSON decoder as a parameter, so what is proved
      of it holds for every function with the interface of [json.loads];
      the decoder of the standard library is modelled too and used on
      concrete traffic;
    - the two workers of a connection are modelled one at a time: they
      share nothing but the socket, whose behaviour is the world's. *)

From Stdlib Require Import List Bool Arith NArith ZArith Lia DecimalString.
From Stdlib.Strings Require Import Ascii String Byte.
Import ListNotations.

Set Implicit Arguments.
Set Warnings "-register-all".

(* ================================================================== *)
(** * Python text and bytes *)
(* ================================================================== *)

Module Py.

(** A Python [str] is a sequence of Unicode code points. *)
Definition char := N.
Definition str := list char.

(** A Python [bytes] object. *)
Definition bytes := list byte.

(** An ASCII literal of the source text, as a [str]. *)
Definition lit (s : string) : str := map N_of_ascii (list_ascii_of_string s).

(** The separator '\n'. *)
Definition NL : char := 10%N.

Definition str_eqb (a b : str) : bool :=
  if list_eq_dec N.eq_dec a b then true else false.

(** [s.startswith(p)] *)
Fixpoint startswith (p s : str) : bool :=
  match p, s with
  | [], _ => true
  | _ :: _, [] => false
  | a :: p', b :: s' => N.eqb a b && startswith p' s'
  end.

(** ** [str.isspace] on one character, [str.strip]

    The characters Python's [str.strip()] removes are those for which
    [Py_UNICODE_ISSPACE] holds. *)
Definition isspace (c : char) : bool :=
  ((9 <=? c) && (c <=? 13) ||
   (28 <=? c) && (c <=? 32) ||
   (c =? 133) || (c =? 160) || (c =? 5760) ||
   (8192 <=? c) && (c <=? 8202) ||
   (c =? 8232) || (c =? 8233) || (c =? 8239) || (c =? 8287) ||
   (c =? 12288))%N.

Fixpoint lstrip (s : str) : str :=
  match s with
  | [] => []
  | c :: s' => if isspace c then lstrip s' else s
  end.

Definition rstrip (s : str) : str := rev (lstrip (rev s)).

Definition strip (s : str) : str := rstrip (lstrip s).

(** Truth value of a [str]: non-empty. *)
Definition truthy (s : str) : bool :=
  match s with [] => false | _ :: _ => true end.

(** ** ['\n' in s] and [s.split('\n', 1)] *)

Definition contains_nl (s : str) : bool := existsb (fun c => N.eqb c NL) s.

(** [split_nl s] is the pair unpacked from [s.split('\n', 1)] when
    ['\n' in s]: the text before the first newline and the text after it.
    (Without a newline [split] returns one element and the unpacking in the
    source would fail; the loop guard excludes it.  Here the second
    component is then empty.) *)
Fixpoint split_nl (s : str) : str * str :=
  match s with
  | [] => ([], [])
  | c :: s' =>
      if N.eqb c NL then ([], s')
      else let (line, rest) := split_nl s' in (c :: line, rest)
  end.

(** [s.split('\n')]: the pieces between newlines; never empty. *)
Fixpoint split (s : str) : list str :=
  match s with
  | [] => [[]]
  | c :: s' =>
      if N.eqb c NL then [] :: split s'
      else match split s' with
           | piece :: pieces => (c :: piece) :: pieces
           | [] => [[c]]
           end
  end.

(** [s.split('\n')[:-1]]: the complete lines of [s], each ended by a
    newline in [s]. *)
Definition complete_lines (s : str) : list str := removelast (split s).

(** [s[:n]] *)
Definition prefix (n : nat) (s : str) : str := firstn n s.

(** ** [bytes.decode('utf-8', errors='ignore')]

    CPython's decoder: a well-formed sequence yields its code point; at an
    invalid start byte, an invalid continuation byte or a truncated
    sequence the error handler is called with the offending span, and
    ['ignore'] resumes after that span, producing nothing for it.
    Overlong forms and surrogates (U+D800..U+DFFF) are rejected by the
    range checks on the second byte. *)

Definition is_cont (b : N) : bool := ((128 <=? b) && (b <=? 191))%N.

Definition cp2 (b1 b2 : N) : char :=
  N.lor (N.shiftl (N.land b1 31) 6) (N.land b2 63).

Definition cp3 (b1 b2 b3 : N) : char :=
  N.lor (N.shiftl (N.land b1 15) 12)
        (N.lor (N.shiftl (N.land b2 63) 6) (N.land b3 63)).

Definition cp4 (b1 b2 b3 b4 : N) : char :=
  N.lor (N.shiftl (N.land b1 7) 18)
        (N.lor (N.shiftl (N.land b2 63) 12)
               (N.lor (N.shiftl (N.land b3 63) 6) (N.land b4 63))).

(** Second byte of a three-byte sequence led by [b1]. *)
Definition second_ok3 (b1 b2 : N) : bool :=
  (is_cont b2 &&
   (if b1 =? 224 then 160 <=? b2 else true) &&
   (if b1 =? 237 then b2 <=? 159 else true))%N.

(** Second byte of a four-byte sequence led by [b1]. *)
Definition second_ok4 (b1 b2 : N) : bool :=
  (is_cont b2 &&
   (if b1 =? 240 then 144 <=? b2 else true) &&
   (if b1 =? 244 then b2 <=? 143 else true))%N.

Fixpoint decode_ignore (bs : bytes) : str :=
  match bs with
  | [] => []
  | x1 :: r1 =>
      let b1 := Byte.to_N x1 in
      if (b1 <? 128)%N then b1 :: decode_ignore r1
      else if (b1 <? 194)%N then decode_ignore r1          (* invalid start byte *)
      else if (b1 <? 224)%N then
        match r1 with
        | [] => []                                          (* unexpected end of data *)
        | x2 :: r2 =>
            let b2 := Byte.to_N x2 in
            if is_cont b2 then cp2 b1 b2 :: decode_ignore r2
            else decode_ignore r1                           (* invalid continuation byte *)
        end
      else if (b1 <? 240)%N then
        match r1 with
        | [] => []
        | x2 :: r2 =>
            let b2 := Byte.to_N x2 in
            if second_ok3 b1 b2 then
              match r2 with
              | [] => []
              | x3 :: r3 =>
                  let b3 := Byte.to_N x3 in
                  if is_cont b3 then cp3 b1 b2 b3 :: decode_ignore r3
                  else decode_ignore r2
              end
            else decode_ignore r1
        end
      else if (b1 <? 245)%N then
        match r1 with
        | [] => []
        | x2 :: r2 =>
            let b2 := Byte.to_N x2 in
            if second_ok4 b1 b2 then
              match r2 with
              | [] => []
              | x3 :: r3 =>
                  let b3 := Byte.to_N x3 in
                  if is_cont b3 then
                    match r3 with
                    | [] => []
                    | x4 :: r4 =>
                        let b4 := Byte.to_N x4 in
                        if is_cont b4 then cp4 b1 b2 b3 b4 :: decode_ignore r4
                        else decode_ignore r3
                    end
                  else decode_ignore r2
              end
            else decode_ignore r1
        end
      else decode_ignore r1                                 (* invalid start byte *)
  end.

(** ** [str.encode()] (UTF-8, strict)

    [None] stands for [UnicodeEncodeError] (a surrogate, which UTF-8 cannot
    carry). *)

Definition byte_of (n : N) : byte :=
  match Byte.of_N (n mod 256) with Some b => b | None => x00 end.

Definition encode_char (c : char) : option bytes :=
  if (c <? 128)%N then Some [byte_of c]
  else if (c <? 2048)%N then
    Some [byte_of (N.lor 192 (N.shiftr c 6));
          byte_of (N.lor 128 (N.land c 63))]
  else if ((55296 <=? c) && (c <=? 57343))%N then None
  else if (c <? 65536)%N then
    Some [byte_of (N.lor 224 (N.shiftr c 12));
          byte_of (N.lor 128 (N.land (N.shiftr c 6) 63));
          byte_of (N.lor 128 (N.land c 63))]
  else
    Some [byte_of (N.lor 240 (N.shiftr c 18));
          byte_of (N.lor 128 (N.land (N.shiftr c 12) 63));
          byte_of (N.lor 128 (N.land (N.shiftr c 6) 63));
          byte_of (N.lor 128 (N.land c 63))].

Fixpoint encode (s : str) : option bytes :=
  match s with
  | [] => Some []
  | c :: s' =>
      match encode_char c, encode s' with
      | Some b, Some bs => Some (b ++ bs)
      | _, _ => None
      end
  end.

End Py.

(* ================================================================== *)
(** * Exceptions *)
(* ================================================================== *)

Module Exn.
Import Py.

(** The exception classes the two workers can meet, with Python's class
    hierarchy.  [socket_timeout] is [socket.timeout], which derives from
    [OSError] (and is [TimeoutError] itself from Python 3.10 on). *)
Inductive exn_class : Type :=
| Exception
| OSError
| ConnectionError
| ConnectionResetError
| BrokenPipeError
| socket_timeout
| ValueError
| JSONDecodeError
| AttributeError
| RecursionError
| MemoryError.

(** The nearest base class among those above; [Exception] is the root of
    the modelled part. *)
Definition base (c : exn_class) : option exn_class :=
  match c with
  | Exception => None
  | OSError => Some Exception
  | ConnectionError => Some OSError
  | ConnectionResetError => Some ConnectionError
  | BrokenPipeError => Some ConnectionError
  | socket_timeout => Some OSError
  | ValueError => Some Exception
  | JSONDecodeError => Some ValueError
  | AttributeError => Some Exception
  | RecursionError => Some Exception
  | MemoryError => Some Exception
  end.

Definition class_eqb (a b : exn_class) : bool :=
  match a, b with
  | Exception, Exception | OSError, OSError
  | ConnectionError, ConnectionError
  | ConnectionResetError, ConnectionResetError
  | BrokenPipeError, BrokenPipeError
  | socket_timeout, socket_timeout
  | ValueError, ValueError | JSONDecodeError, JSONDecodeError
  | AttributeError, AttributeError | RecursionError, RecursionError
  | MemoryError, MemoryError => true
  | _, _ => false
  end.

(** [issubclass(c, d)]: [d] is reached from [c] along [base].  The
    hierarchy is four levels deep. *)
Fixpoint climbs (n : nat) (c d : exn_class) : bool :=
  class_eqb c d ||
  match n with
  | O => false
  | S n' => match base c with
            | Some b => climbs n' b d
            | None => false
            end
  end.

Definition issubclass (c d : exn_class) : bool := climbs 4 c d.

(** A raised exception: its class and the text [str(e)] gives. *)
Record exn : Type := Raise { cls : exn_class; message : str }.

(** [except d:] matches [e]. *)
Definition caught_by (e : exn) (d : exn_class) : bool := issubclass (cls e) d.

(** [except (d1, d2, ...):] matches [e]. *)
Definition caught_by_any (e : exn) (ds : list exn_class) : bool :=
  existsb (caught_by e) ds.

End Exn.

(* ================================================================== *)
(** * Values produced by [json.loads] *)
(* ================================================================== *)

Module Json.
Import Py.

(** The Python objects [json.loads] can return.  A [dict] keeps its keys
    in insertion order, each key once.  A [float] is kept as the literal
    that was handed to [float()]: the workers never compute with one. *)
Inductive value : Type :=
| PNone
| PBool (b : bool)
| PInt (n : Z)
| PFloat (literal : str)
| PStr (s : str)
| PList (items : list value)
| PDict (items : list (str * value)).

(** [d[k] = v] *)
Fixpoint dict_set (d : list (str * value)) (k : str) (v : value)
  : list (str * value) :=
  match d with
  | [] => [(k, v)]
  | (k', v') :: d' =>
      if str_eqb k' k then (k', v) :: d' else (k', v') :: dict_set d' k v
  end.

(** [dict(pairs)] *)
Definition dict_of_pairs (pairs : list (str * value)) : list (str * value) :=
  fold_left (fun d kv => dict_set d (fst kv) (snd kv)) pairs [].

(** The value stored under [k], if any. *)
Fixpoint dict_lookup (d : list (str * value)) (k : str) : option value :=
  match d with
  | [] => None
  | (k', v') :: d' => if str_eqb k' k then Some v' else dict_lookup d' k
  end.

(** [d.get(k, default)] on a dict's items. *)
Definition dict_get (d : list (str * value)) (k : str) (default : value) : value :=
  match dict_lookup d k with
  | Some v => v
  | None => default
  end.

(** [type(v).__name__] *)
Definition type_name (v : value) : str :=
  match v with
  | PNone => lit "NoneType"
  | PBool _ => lit "bool"
  | PInt _ => lit "int"
  | PFloat _ => lit "float"
  | PStr _ => lit "str"
  | PList _ => lit "list"
  | PDict _ => lit "dict"
  end.

(** [isinstance(v, dict)] *)
Definition is_dict (v : value) : bool :=
  match v with
  | PDict _ => true
  | _ => false
  end.

(** [v == s] for a [str] [s]: only an equal [str] compares equal. *)
Definition eq_str (v : value) (s : str) : bool :=
  match v with
  | PStr t => str_eqb t s
  | _ => false
  end.

(** [v.get(k, default)]: the method exists on [dict] only; on any other
    object the attribute lookup raises [AttributeError]. *)
Definition get (v : value) (k : str) (default : value) : value + Exn.exn :=
  match v with
  | PDict d => inl (dict_get d k default)
  | _ => inr (Exn.Raise Exn.AttributeError
                (lit "'" ++ type_name v ++ lit "' object has no attribute 'get'"))
  end.

End Json.

(* ================================================================== *)
(** * [json.loads] *)
(* ================================================================== *)

Module Decoder.
Import Py Json.

(** How a call of [json.loads] on a [str] can fail.  [Malformed] is
    [json.JSONDecodeError]; the others are the failures of the interpreter
    the decoder can run into on particular texts (nesting too deep, an
    integer literal beyond the digit limit, memory). *)
Inductive failure : Type := Malformed | TooDeep | TooLong | NoMemory.

Definition failure_class (f : failure) : Exn.exn_class :=
  match f with
  | Malformed => Exn.JSONDecodeError
  | TooDeep => Exn.RecursionError
  | TooLong => Exn.ValueError
  | NoMemory => Exn.MemoryError
  end.

(** The result of [json.loads(line)]: the object, or the failure with the
    text of the exception. *)
Definition result : Type := value + failure * str.

Definition raised (r : failure * str) : Exn.exn :=
  Exn.Raise (failure_class (fst r)) (snd r).

(** A decoder: any function with the interface of [json.loads] on [str]. *)
Definition decoder : Type := str -> result.

(** ** The decoder of the standard library

    [json.decoder] and [json.scanner] with the default options
    ([strict=True], no hooks).  A parser returns the object and the text
    after it, fails ([Bad]: [JSONDecodeError], or [StopIteration] which the
    callers turn into one), or runs out of nesting budget ([Deep]). *)

Inductive parse (A : Type) : Type :=
| Ok (a : A) (rest : str)
| Bad
| Deep.
Arguments Bad {A}.
Arguments Deep {A}.

Definition bind {A B : Type} (p : parse A) (k : A -> str -> parse B) : parse B :=
  match p with
  | Ok a rest => k a rest
  | Bad => Bad
  | Deep => Deep
  end.

Notation "'let*' ( a , r ) ':=' p 'in' k" :=
  (bind p (fun a r => k))
  (at level 10, a name, r name, p at level 100, k at level 200).

Definition ch (a : ascii) : char := N_of_ascii a.

(** The double quote and the backslash. *)
Definition QUOTE : char := 34%N.
Definition BACKSLASH : char := 92%N.

(** [WHITESPACE = [ \t\n\r]*] *)
Definition is_ws (c : char) : bool :=
  ((c =? 32) || (c =? 9) || (c =? 10) || (c =? 13))%N.

Fixpoint skip_ws (s : str) : str :=
  match s with
  | [] => []
  | c :: s' => if is_ws c then skip_ws s' else s
  end.

Definition is_digit (c : char) : bool := ((48 <=? c) && (c <=? 57))%N.

Fixpoint span_digits (s : str) : str * str :=
  match s with
  | [] => ([], [])
  | c :: s' =>
      if is_digit c then let (ds, r) := span_digits s' in (c :: ds, r)
      else ([], s)
  end.

Definition digits_value (ds : str) : Z :=
  fold_left (fun a c => (10 * a + (Z.of_N c - 48))%Z) ds 0%Z.

Definition hex_digit (c : char) : option N :=
  if ((48 <=? c) && (c <=? 57))%N then Some (c - 48)%N
  else if ((97 <=? c) && (c <=? 102))%N then Some (c - 87)%N
  else if ((65 <=? c) && (c <=? 70))%N then Some (c - 55)%N
  else None.

(** [_decode_uXXXX]: four hexadecimal digits. *)
Definition hex4 (s : str) : parse N :=
  match s with
  | a :: b :: c :: d :: rest =>
      match hex_digit a, hex_digit b, hex_digit c, hex_digit d with
      | Some a, Some b, Some c, Some d =>
          Ok (4096 * a + 256 * b + 16 * c + d)%N rest
      | _, _, _, _ => Bad
      end
  | _ => Bad
  end.

(** [BACKSLASH]: the one-character escapes. *)
Definition backslash (e : char) : option char :=
  if (e =? QUOTE)%N then Some (QUOTE)
  else if (e =? BACKSLASH)%N then Some (BACKSLASH)
  else if (e =? ch "/")%N then Some (ch "/")
  else if (e =? ch "b")%N then Some 8%N
  else if (e =? ch "f")%N then Some 12%N
  else if (e =? ch "n")%N then Some 10%N
  else if (e =? ch "r")%N then Some 13%N
  else if (e =? ch "t")%N then Some 9%N
  else None.

Definition is_high (u : N) : bool := ((55296 <=? u) && (u <=? 56319))%N.
Definition is_low (u : N) : bool := ((56320 <=? u) && (u <=? 57343))%N.

Definition cons_char (c : char) (p : parse str) : parse str :=
  match p with
  | Ok s rest => Ok (c :: s) rest
  | Bad => Bad
  | Deep => Deep
  end.

(** [scanstring]: the text after the opening quote, up to the closing one. *)
Fixpoint scanstring (fuel : nat) (s : str) : parse str :=
  match fuel with
  | O => Deep
  | S fuel =>
      match s with
      | [] => Bad                                   (* unterminated string *)
      | c :: s1 =>
          if (c =? QUOTE)%N then Ok [] s1
          else if (c =? BACKSLASH)%N then
            match s1 with
            | [] => Bad
            | e :: s2 =>
                if (e =? ch "u")%N then
                  let* (uni, s3) := hex4 s2 in
                  if is_high uni && startswith [BACKSLASH; ch "u"] s3 then
                    let* (uni2, s4) := hex4 (skipn 2 s3) in
                    if is_low uni2 then
                      cons_char
                        (65536 + N.lor (N.shiftl (uni - 55296) 10) (uni2 - 56320))%N
                        (scanstring fuel s4)
                    else cons_char uni (scanstring fuel s3)
                  else cons_char uni (scanstring fuel s3)
                else
                  match backslash e with
                  | Some c' => cons_char c' (scanstring fuel s2)
                  | None => Bad                     (* invalid \escape *)
                  end
            end
          else if (c <? 32)%N then Bad              (* invalid control character *)
          else cons_char c (scanstring fuel s1)
      end
  end.

(** [NUMBER_RE]: an optional minus sign and an integer part (a single 0,
    or a non-zero digit and more digits); optionally a point and at least
    one digit; optionally e or E, a sign and at least one digit.  Then
    [int] on the integer part when there is neither fraction nor exponent,
    else [float] on the whole literal. *)
Definition match_number (s : str) : parse value :=
  let (sign, s0) :=
    match s with
    | c :: r => if (c =? ch "-")%N then ([c], r) else ([], s)
    | [] => ([], s)
    end in
  match s0 with
  | [] => Bad
  | c :: r =>
      if is_digit c then
        let (int_ds, s1) :=
          if (c =? ch "0")%N then ([c], r)
          else let (ds, r') := span_digits r in (c :: ds, r') in
        let (frac, s2) :=
          match s1 with
          | d :: r1 =>
              if (d =? ch ".")%N then
                match span_digits r1 with
                | ([], _) => ([], s1)
                | (fs, r2) => (d :: fs, r2)
                end
              else ([], s1)
          | [] => ([], s1)
          end in
        let (exp, s3) :=
          match s2 with
          | e :: r1 =>
              if ((e =? ch "e") || (e =? ch "E"))%N then
                let (sg, r2) :=
                  match r1 with
                  | g :: r2 =>
                      if ((g =? ch "-") || (g =? ch "+"))%N then ([g], r2)
                      else ([], r1)
                  | [] => ([], r1)
                  end in
                match span_digits r2 with
                | ([], _) => ([], s2)
                | (es, r3) => (e :: sg ++ es, r3)
                end
              else ([], s2)
          | [] => ([], s2)
          end in
        match frac, exp with
        | [], [] =>
            Ok (PInt (match sign with
                      | [] => digits_value int_ds
                      | _ => - digits_value int_ds
                      end)%Z) s3
        | _, _ => Ok (PFloat (sign ++ int_ds ++ frac ++ exp)) s3
        end
      else Bad
  end.

(** A keyword at the head of the text. *)
Definition keyword (k : string) (v : value) (s : str) : parse value :=
  if startswith (lit k) s then Ok v (skipn (String.length k) s) else Bad.

(** [scan_once], [JSONObject] and [JSONArray].  [pairs] and [items] are
    the entries read so far, in order.  [fuel] bounds the number of nested
    calls; twice the length of the text, plus one, is enough for any text
    (lemma [json_loads_total] below). *)
Fixpoint scan_once (fuel : nat) (s : str) : parse value :=
  match fuel with
  | O => Deep
  | S fuel =>
      match s with
      | [] => Bad
      | c :: r =>
          if (c =? QUOTE)%N then
            let* (t, rest) := scanstring (S (List.length r)) r in Ok (PStr t) rest
          else if (c =? ch "{")%N then
            match skip_ws r with
            | c1 :: r1 =>
                if (c1 =? ch "}")%N then Ok (PDict []) r1
                else if (c1 =? QUOTE)%N then object_loop fuel r1 []
                else Bad
            | [] => Bad
            end
          else if (c =? ch "[")%N then
            match skip_ws r with
            | c1 :: r1 =>
                if (c1 =? ch "]")%N then Ok (PList []) r1
                else array_loop fuel (c1 :: r1) []
            | [] => Bad
            end
          else if startswith (lit "null") s then keyword "null" PNone s
          else if startswith (lit "true") s then keyword "true" (PBool true) s
          else if startswith (lit "false") s then keyword "false" (PBool false) s
          else
            match match_number s with
            | Ok v rest => Ok v rest
            | Deep => Deep
            | Bad =>
                if startswith (lit "NaN") s then keyword "NaN" (PFloat (lit "NaN")) s
                else if startswith (lit "Infinity") s
                  then keyword "Infinity" (PFloat (lit "Infinity")) s
                else if startswith (lit "-Infinity") s
                  then keyword "-Infinity" (PFloat (lit "-Infinity")) s
                else Bad
            end
      end
  end

with object_loop (fuel : nat) (s : str) (pairs : list (str * value))
  : parse value :=
  match fuel with
  | O => Deep
  | S fuel =>
      let* (key, s1) := scanstring (S (List.length s)) s in
      match skip_ws s1 with
      | c :: s2 =>
          if (c =? ch ":")%N then
            let* (v, s3) := scan_once fuel (skip_ws s2) in
            let pairs := pairs ++ [(key, v)] in
            match skip_ws s3 with
            | c1 :: s4 =>
                if (c1 =? ch "}")%N then Ok (PDict (dict_of_pairs pairs)) s4
                else if (c1 =? ch ",")%N then
                  match skip_ws s4 with
                  | c2 :: s5 =>
                      if (c2 =? QUOTE)%N then object_loop fuel s5 pairs
                      else Bad
                  | [] => Bad
                  end
                else Bad
            | [] => Bad
            end
          else Bad
      | [] => Bad
      end
  end

with array_loop (fuel : nat) (s : str) (items : list value) : parse value :=
  match fuel with
  | O => Deep
  | S fuel =>
      let* (v, s1) := scan_once fuel s in
      let items := items ++ [v] in
      match skip_ws s1 with
      | c :: s2 =>
          if (c =? ch "]")%N then Ok (PList items) s2
          else if (c =? ch ",")%N then array_loop fuel (skip_ws s2) items
          else Bad
      | [] => Bad
      end
  end.

(** [json.loads(s)] for a [str]: a leading byte-order mark is refused, then
    one value is read between optional whitespace, and nothing may follow. *)
Definition json_loads : decoder := fun s =>
  if startswith [65279%N] s then inr (Malformed, lit "Unexpected UTF-8 BOM")
  else
    match scan_once (S (2 * List.length s)) (skip_ws s) with
    | Ok v rest =>
        match skip_ws rest with
        | [] => inl v
        | _ :: _ => inr (Malformed, lit "Extra data")
        end
    | Bad => inr (Malformed, lit "Expecting value")
    | Deep => inr (TooDeep, lit "maximum recursion depth exceeded")
    end.

End Decoder.

(* ================================================================== *)
(** * [json.dumps] *)
(* ================================================================== *)

Module Encoder.
Import Py Json.

Definition hex_char (n : N) : char :=
  if (n <? 10)%N then (48 + n)%N else (87 + n)%N.

(** ['\\u{0:04x}'.format(n)] *)
Definition u_escape (n : N) : str :=
  [92%N; 117%N;
   hex_char (N.shiftr n 12 mod 16); hex_char (N.shiftr n 8 mod 16);
   hex_char (N.shiftr n 4 mod 16); hex_char (n mod 16)].

(** [ESCAPE_ASCII] with [ESCAPE_DCT]: the backslash, the quote and every
    character outside [' '..'~'] are replaced. *)
Definition escape_char (c : char) : str :=
  if (c =? 92)%N then [92%N; 92%N]
  else if (c =? 34)%N then [92%N; 34%N]
  else if (c =? 8)%N then [92%N; 98%N]
  else if (c =? 12)%N then [92%N; 102%N]
  else if (c =? 10)%N then [92%N; 110%N]
  else if (c =? 13)%N then [92%N; 114%N]
  else if (c =? 9)%N then [92%N; 116%N]
  else if ((32 <=? c) && (c <=? 126))%N then [c]
  else if (c <? 65536)%N then u_escape c
  else
    let n := (c - 65536)%N in
    u_escape (N.lor 55296 (N.land (N.shiftr n 10) 1023)) ++
    u_escape (N.lor 56320 (N.land n 1023)).

(** [py_encode_basestring_ascii] *)
Definition encode_basestring_ascii (s : str) : str :=
  [34%N] ++ flat_map escape_char s ++ [34%N].

(** [int.__repr__] *)
Definition int_repr (n : Z) : str :=
  lit (DecimalString.NilZero.string_of_int (Z.to_int n)).

(** [sep.join(parts)] *)
Fixpoint join (sep : str) (parts : list str) : str :=
  match parts with
  | [] => []
  | [p] => p
  | p :: ps => p ++ sep ++ join sep ps
  end.

Fixpoint sequence (xs : list (option str)) : option (list str) :=
  match xs with
  | [] => Some []
  | Some x :: xs' => option_map (cons x) (sequence xs')
  | None :: _ => None
  end.

(** [json.dumps(v)] with the default options: [ensure_ascii=True], item
    separator [", "], key separator [": "].  [None] where the text would
    hold the [repr] of a [float], which is not modelled. *)
Fixpoint json_dumps (v : value) : option str :=
  match v with
  | PNone => Some (lit "null")
  | PBool true => Some (lit "true")
  | PBool false => Some (lit "false")
  | PInt n => Some (int_repr n)
  | PFloat _ => None
  | PStr s => Some (encode_basestring_ascii s)
  | PList items =>
      option_map (fun parts => lit "[" ++ join (lit ", ") parts ++ lit "]")
        (sequence (map json_dumps items))
  | PDict items =>
      option_map (fun parts => lit "{" ++ join (lit ", ") parts ++ lit "}")
        (sequence
           (map (fun kv =>
                   option_map
                     (fun t => encode_basestring_ascii (fst kv) ++ lit ": " ++ t)
                     (json_dumps (snd kv)))
                items))
  end.

End Encoder.

(* ================================================================== *)
(** * The workers *)
(* ================================================================== *)

Module Server.
Import Py Json Exn.
Import Decoder (decoder, raised, json_loads).
Import Encoder (json_dumps).

(** The peer address [accept()] returns for an [AF_INET] socket. *)
Record address : Type := Addr { host : str; port : Z }.

(** An f-string: literal text and replacement fields.  A field holds the
    object that is formatted. *)
Inductive field : Type :=
| Text (s : string)
| FAddr (a : address)
| FValue (v : value)
| FExn (e : exn).

Definition fstring : Type := list field.

Inductive sockopt : Type :=
| SO_KEEPALIVE | TCP_KEEPIDLE | TCP_KEEPINTVL | TCP_KEEPCNT.

(** What a worker does to the outside: the calls on [conn], [time.sleep]
    and [print], in program order. *)
Inductive event : Type :=
| SetTimeout (secs : Z)
| SetSockOpt (opt : sockopt) (val : Z)
| Recv (bufsize : Z)
| Send (data : bytes)
| Sleep (secs : Z)
| Close
| Print (msg : fstring).

(** What a call on the socket does. *)
Inductive outcome (A : Type) : Type :=
| Returns (a : A)
| Raises (e : exn).
Arguments Raises {A}.

(** How control leaves a statement: it completes, it executes [break],
    it raises, or (for the model of a loop only) the bound on its
    iterations was too small. *)
Inductive flow : Type :=
| Normal
| Break
| Throw (e : exn)
| Starved.

(** A stretch of the reader: what it did, the values it bound to [line]
    (kept for the statements about framing; the code does not store them),
    how control left it, and the receive buffer at that point. *)
Record step : Type := Step {
  did : list event;
  bound : list str;
  leaves : flow;
  holds : str
}.

(** How a worker stands after the calls the world has answered: it has
    returned, an exception left it, or it is blocked in a call. *)
Inductive ended : Type :=
| Returned
| Escaped (e : exn)
| InRecv (buffer : str)
| InSend
| Stuck.

Record run : Type := Run {
  trace : list event;
  seen : list str;
  final : ended
}.

Definition emit (evs : list event) (ls : list str) (r : run) : run :=
  Run (evs ++ trace r) (ls ++ seen r) (final r).

(** [finally: try: conn.close() except: pass], then what follows it in the
    [finally] block.  Whatever [close] does, the bare [except] swallows. *)
Definition closing (on_close : outcome unit) (after : list event) (r : run) : run :=
  match final r with
  | InRecv _ | InSend | Stuck => r
  | Returned | Escaped _ =>
      match on_close with
      | Returns _ | Raises _ =>
          Run (trace r ++ Close :: after) (seen r) (final r)
      end
  end.

(** ** Reader *)

(** The socket as the reader meets it: the outcome of each call.  The
    list gives the successive results of [conn.recv(1024)]; when it is
    used up the reader is blocked in [recv]. *)
Record reader_world : Type := ReaderWorld {
  r_settimeout : outcome unit;
  r_keepalive : outcome unit;
  r_keepidle : outcome unit;
  r_keepintvl : outcome unit;
  r_keepcnt : outcome unit;
  r_recv : list (outcome bytes);
  r_close : outcome unit
}.

Section Reader.

Variable loads : decoder.
Variable addr : address.

Definition heartbeat_log (login : value) : fstring :=
  [Text "[INFO] Heartbeat from "; FAddr addr; Text " (login: ";
   FValue login; Text ")"].

Definition message_log (msg_type : value) (line : str) : fstring :=
  [Text "[INFO] Message from "; FAddr addr; Text " (type: ";
   FValue msg_type; Text "): "; FValue (PStr (prefix 200 line)); Text "..."].

Definition invalid_log (line : str) : fstring :=
  [Text "[WARN] Invalid JSON from "; FAddr addr; Text ": ";
   FValue (PStr (prefix 100 line))].

Definition reset_log : fstring :=
  [Text "[INFO] Connection reset by "; FAddr addr].

Definition broken_log : fstring :=
  [Text "[INFO] Broken pipe with "; FAddr addr].

Definition read_error_log (e : exn) : fstring :=
  [Text "[ERROR] read from "; FAddr addr; Text " -> "; FExn e].

Definition closed_log : fstring :=
  [Text "[INFO] Connection closed with "; FAddr addr].

(** Lines 42-52: the [try] around the parse and the two logs, with its
    handler.  The result is what was printed and the exception that leaves
    the statement, if any. *)
Definition dispatch (line : str) : list event * option exn :=
  let body : list event * option exn :=
    match loads line with
    | inr r => ([], Some (raised r))
    | inl msg_json =>
        match get msg_json (lit "type") (PStr (lit "unknown")) with
        | inr e => ([], Some e)
        | inl msg_type =>
            if eq_str msg_type (lit "heartbeat") then
              match get msg_json (lit "login") (PStr (lit "unknown")) with
              | inr e => ([], Some e)
              | inl login => ([Print (heartbeat_log login)], None)
              end
            else ([Print (message_log msg_type line)], None)
        end
    end in
  match body with
  | (out, Some e) =>
      if caught_by e JSONDecodeError
      then (out ++ [Print (invalid_log line)], None)
      else (out, Some e)
  | (out, None) => (out, None)
  end.

Definition then_ (out : list event) (line : str) (s : step) : step :=
  Step (out ++ did s) (line :: bound s) (leaves s) (holds s).

(** Lines 39-52: [while '\n' in buffer].  Every iteration removes a
    newline from the buffer, so [fuel] at least the length of the buffer
    is never used up. *)
Fixpoint drain (fuel : nat) (buffer : str) {struct fuel} : step :=
  if contains_nl buffer then
    match fuel with
    | O => Step [] [] Starved buffer
    | S fuel =>
        let (line, buffer) := split_nl buffer in
        if truthy (strip line) then
          match dispatch line with
          | (out, Some e) => Step out [line] (Throw e) buffer
          | (out, None) => then_ out line (drain fuel buffer)
          end
        else then_ [] line (drain fuel buffer)
    end
  else Step [] [] Normal buffer.

(** The loop as the reader runs it on a buffer. *)
Definition extract (buffer : str) : step := drain (List.length buffer) buffer.

(** Lines 31-52: the body of the [try] inside [while True], given what
    [conn.recv(1024)] does. *)
Definition receive (o : outcome bytes) (buffer : str) : step :=
  match o with
  | Raises e => Step [Recv 1024] [] (Throw e) buffer
  | Returns chunk =>
      let data := decode_ignore chunk in
      if negb (truthy data) then Step [Recv 1024] [] Break buffer
      else
        let buffer := buffer ++ data in
        let s := extract buffer in
        Step (Recv 1024 :: did s) (bound s) (leaves s) (holds s)
  end.

(** Lines 29-65: [while True] with the three handlers of its [try]. *)
Fixpoint read_loop (recvs : list (outcome bytes)) (buffer : str) : run :=
  match recvs with
  | [] => Run [] [] (InRecv buffer)
  | o :: recvs =>
      let s := receive o buffer in
      match leaves s with
      | Normal => emit (did s) (bound s) (read_loop recvs (holds s))
      | Break => Run (did s) (bound s) Returned
      | Throw e =>
          if caught_by e socket_timeout then                      (* continue *)
            emit (did s) (bound s) (read_loop recvs (holds s))
          else if caught_by e ConnectionResetError then           (* break *)
            Run (did s ++ [Print reset_log]) (bound s) Returned
          else if caught_by e BrokenPipeError then                (* break *)
            Run (did s ++ [Print broken_log]) (bound s) Returned
          else Run (did s) (bound s) (Escaped e)
      | Starved => Run (did s) (bound s) Stuck
      end
  end.

(** Lines 17-26: the keepalive parameters, set under a [try] that lets an
    [AttributeError] or [OSError] pass. *)
Definition keepalive_parameters (w : reader_world) : list event * option exn :=
  let handler (evs : list event) (e : exn) :=
    if caught_by_any e [AttributeError; OSError] then (evs, None)
    else (evs, Some e) in
  match r_keepidle w with
  | Raises e => handler [SetSockOpt TCP_KEEPIDLE 60] e
  | Returns _ =>
      match r_keepintvl w with
      | Raises e =>
          handler [SetSockOpt TCP_KEEPIDLE 60; SetSockOpt TCP_KEEPINTVL 10] e
      | Returns _ =>
          let evs := [SetSockOpt TCP_KEEPIDLE 60; SetSockOpt TCP_KEEPINTVL 10;
                      SetSockOpt TCP_KEEPCNT 3] in
          match r_keepcnt w with
          | Raises e => handler evs e
          | Returns _ => (evs, None)
          end
      end
  end.

(** [read(conn, addr)] *)
Definition read (w : reader_world) : run :=
  let body : run :=
    match r_settimeout w with
    | Raises e => Run [SetTimeout 30] [] (Escaped e)
    | Returns _ =>
        match r_keepalive w with
        | Raises e =>
            Run [SetTimeout 30; SetSockOpt SO_KEEPALIVE 1] [] (Escaped e)
        | Returns _ =>
            match keepalive_parameters w with
            | (evs, Some e) =>
                Run (SetTimeout 30 :: SetSockOpt SO_KEEPALIVE 1 :: evs) []
                    (Escaped e)
            | (evs, None) =>
                emit (SetTimeout 30 :: SetSockOpt SO_KEEPALIVE 1 :: evs) []
                     (read_loop (r_recv w) [])
            end
        end
    end in
  let handled : run :=
    match final body with
    | Escaped e =>
        if caught_by e Exception
        then Run (trace body ++ [Print (read_error_log e)]) (seen body) Returned
        else body
    | _ => body
    end in
  closing (r_close w) [Print closed_log] handled.

End Reader.

(** ** Writer *)

(** The socket as the writer meets it.  The list gives the successive
    results of [conn.send]; when it is used up the writer is blocked in
    [send]. *)
Record writer_world : Type := WriterWorld {
  w_settimeout : outcome unit;
  w_send : list (outcome N);
  w_close : outcome unit
}.

(** [payload = { "cmd": "ACCOUNT" }] *)
Definition payload : value := PDict [(lit "cmd", PStr (lit "ACCOUNT"))].

(** [json.dumps(v).encode()] *)
Definition wire (v : value) : option bytes :=
  match json_dumps v with
  | Some text => encode text
  | None => None
  end.

Section Writer.

Variable addr : address.

Definition ending_log (e : exn) : fstring :=
  [Text "[INFO] Write thread ending for "; FAddr addr; Text ": "; FExn e].

Definition write_error_log (e : exn) : fstring :=
  [Text "[ERROR] write to "; FAddr addr; Text " -> "; FExn e].

(** Lines 84-86: the body of the [try] inside [while True], given what
    [conn.send] does. *)
Definition transmit (data : bytes) (o : outcome N) : list event * option exn :=
  match o with
  | Returns _ => ([Send data; Sleep 3], None)
  | Raises e => ([Send data], Some e)
  end.

(** Lines 82-93: [while True] with the two handlers of its [try], in the
    order of the source.  (The payload holds a [str] of plain letters, so
    its serialization is defined and the first case does not arise.) *)
Fixpoint write_loop (sends : list (outcome N)) : run :=
  match wire payload with
  | None => Run [] [] (Escaped (Raise ValueError (lit "not serializable")))
  | Some data =>
      match sends with
      | [] => Run [] [] InSend
      | o :: sends =>
          match transmit data o with
          | (evs, None) => emit evs [] (write_loop sends)
          | (evs, Some e) =>
              if caught_by_any e [ConnectionResetError; BrokenPipeError; OSError]
              then Run (evs ++ [Print (ending_log e)]) [] Returned   (* break *)
              else if caught_by e socket_timeout
              then emit evs [] (write_loop sends)                    (* continue *)
              else Run evs [] (Escaped e)
          end
      end
  end.

(** [write(conn, addr)] *)
Definition write (w : writer_world) : run :=
  let body : run :=
    match w_settimeout w with
    | Raises e => Run [SetTimeout 30] [] (Escaped e)
    | Returns _ => emit [SetTimeout 30] [] (write_loop (w_send w))
    end in
  let handled : run :=
    match final body with
    | Escaped e =>
        if caught_by e Exception
        then Run (trace body ++ [Print (write_error_log e)]) (seen body) Returned
        else body
    | _ => body
    end in
  closing (w_close w) [] handled.

End Writer.

End Server.

(* ================================================================== *)
(** * The listener *)
(* ================================================================== *)

Module Listener.
Import Py Exn.
Import Server (address, Addr, field, Text, FAddr, FExn, fstring,
               outcome, Returns, Raises).

(** The worker a thread is created for: [target=read] or [target=write]. *)
Inductive worker : Type := ReadWorker | WriteWorker.

Inductive option_name : Type := REUSEADDR | KEEPALIVE | SNDBUF | RCVBUF.

(** What [start_server] does to the outside, in program order.  An
    accepted connection is named by a number. *)
Inductive call : Type :=
| Socket
| SetOption (opt : option_name) (val : Z)
| Bind (host : str) (port : Z)
| Listen (backlog : Z)
| GetSockName
| Accept
| SetConnOption (conn : nat) (opt : option_name) (val : Z)
| Start (w : worker) (conn : nat) (addr : address) (daemon : bool)
| Say (msg : fstring).

(** What the calls of one round of the accept loop do: [accept], the
    three [setsockopt] on the connection, and the two [Thread.start]. *)
Record arrival : Type := Arrival {
  on_accept : outcome (nat * address);
  on_keepalive : outcome unit;
  on_sndbuf : outcome unit;
  on_rcvbuf : outcome unit;
  on_start_reader : outcome unit;
  on_start_writer : outcome unit
}.

(** The outside as [start_server] meets it.  When the arrivals are used up
    the listener is blocked in [accept]. *)
Record listener_world : Type := ListenerWorld {
  l_socket : outcome unit;
  l_reuseaddr : outcome unit;
  l_keepalive : outcome unit;
  l_bind : outcome unit;
  l_listen : outcome unit;
  l_getsockname : outcome address;
  l_arrivals : list arrival
}.

(** How the listener stands: blocked in [accept], or left by an
    exception. *)
Inductive standing : Type :=
| Listening
| Crashed (e : exn).

(** A straight run of calls that return nothing: each is made in turn
    until one raises. *)
Fixpoint perform (steps : list (call * outcome unit)) : list call * option exn :=
  match steps with
  | [] => ([], None)
  | (c, Returns _) :: rest => let (t, r) := perform rest in (c :: t, r)
  | (c, Raises e) :: _ => ([c], Some e)
  end.

Definition established_log (addr : address) : fstring :=
  [Text "[INFO] Connection established with "; FAddr addr].

Definition accept_error_log (e : exn) : fstring :=
  [Text "[ERROR] Error accepting connection: "; FExn e].

(** [print] of two arguments: a space between them. *)
Definition listening_log (name : address) : fstring :=
  [Text "[INFO] Server is listening on port 8888"; Text " "; FAddr name].

Definition keepalive_log : fstring :=
  [Text "[INFO] TCP keepalive enabled, timeout: 30s"].

(** Lines 119-136: the body of the [try] inside [while True]. *)
Definition welcome (a : arrival) : list call * option exn :=
  match on_accept a with
  | Raises e => ([Accept], Some e)
  | Returns (conn, addr) =>
      let (t, r) :=
        perform
          [(SetConnOption conn KEEPALIVE 1, on_keepalive a);
           (SetConnOption conn SNDBUF 65536, on_sndbuf a);
           (SetConnOption conn RCVBUF 65536, on_rcvbuf a);
           (Start ReadWorker conn addr true, on_start_reader a);
           (Start WriteWorker conn addr true, on_start_writer a)] in
      (Accept :: Say (established_log addr) :: t, r)
  end.

(** Lines 117-139: [while True] with its handler. *)
Fixpoint accept_loop (arrivals : list arrival) : list call * standing :=
  match arrivals with
  | [] => ([], Listening)
  | a :: arrivals =>
      match welcome a with
      | (t, None) =>
          let (t', s) := accept_loop arrivals in (t ++ t', s)
      | (t, Some e) =>
          if caught_by e Exception then                          (* continue *)
            let (t', s) := accept_loop arrivals in
            (t ++ Say (accept_error_log e) :: t', s)
          else (t, Crashed e)
      end
  end.

(** [start_server()] *)
Definition start_server (w : listener_world) : list call * standing :=
  match
    perform
      [(Socket, l_socket w);
       (SetOption REUSEADDR 1, l_reuseaddr w);
       (SetOption KEEPALIVE 1, l_keepalive w);
       (Bind (lit "0.0.0.0") 8888, l_bind w);
       (Listen 10, l_listen w)]
  with
  | (t, Some e) => (t, Crashed e)
  | (t, None) =>
      match l_getsockname w with
      | Raises e => (t ++ [GetSockName], Crashed e)
      | Returns name =>
          let (t', s) := accept_loop (l_arrivals w) in
          (t ++ GetSockName :: Say (listening_log name) :: Say keepalive_log :: t',
           s)
      end
  end.

End Listener.

(* ================================================================== *)
(** * Notions used in the statements *)
(* ================================================================== *)

Import Py Json Exn Decoder Encoder Server.

(** The piece after the last newline: the line that is not complete. *)
Definition pending (s : str) : str := last (split s) [].

(** No exception leaves the parse-and-log statement on this line. *)
Definition quiet (loads : decoder) (addr : address) (line : str) : Prop :=
  truthy (strip line) = true -> snd (dispatch loads addr line) = None.

(** A parser that does not run out of budget and that, when it succeeds,
    leaves fewer than [n] characters. *)
Definition shorter {A : Type} (p : parse A) (n : nat) : Prop :=
  p <> Deep /\ forall a rest, p = Ok a rest -> List.length rest < n.

(** The eighteen bytes of the text
    [{], quote, [cmd], quote, [: ], quote, [ACCOUNT], quote, [}]. *)
Definition account_json : bytes :=
  [x7b; x22; x63; x6d; x64; x22; x3a; x20;
   x22; x41; x43; x43; x4f; x55; x4e; x54; x22; x7d].

(** A send hands over the serialized payload and nothing else. *)
Definition carries_account (ev : event) : Prop :=
  match ev with
  | Send data => data = account_json
  | _ => True
  end.

(** The events of as many successful rounds of the writer as there are
    results of [send]. *)
Definition cycles (returns : list N) : list event :=
  flat_map (fun _ => [Send account_json; Sleep 3]) returns.

(** Text of an example, each apostrophe standing for a double quote. *)
Definition quoted (s : string) : str :=
  map (fun c => if N.eqb c 39 then QUOTE else c) (lit s).

(** A peer used in the examples. *)
Definition peer : address := Addr (lit "10.0.0.7") 50412.

(** The bytes of an example text (apostrophes for double quotes). *)
Definition sent (s : string) : bytes := map byte_of (quoted s).

(** A socket on which every call but [recv] returns. *)
Definition plain (recvs : list (outcome bytes)) : reader_world :=
  ReaderWorld (Returns tt) (Returns tt) (Returns tt) (Returns tt)
    (Returns tt) recvs (Returns tt).

(** What a run shows apart from its calls of [recv]. *)
Definition output (t : list event) : list event :=
  filter (fun ev => match ev with Recv _ => false | _ => true end) t.

(** What a run shows apart from its calls of [setsockopt]. *)
Definition traffic (t : list event) : list event :=
  filter (fun ev => match ev with SetSockOpt _ _ => false | _ => true end) t.

(** A [recv] that raised [socket.timeout]. *)
Definition timed_out (o : outcome bytes) : bool :=
  match o with
  | Raises e => caught_by e socket_timeout
  | Returns _ => false
  end.

Definition without_timeouts (recvs : list (outcome bytes)) : list (outcome bytes) :=
  filter (fun o => negb (timed_out o)) recvs.


(** A call that returned, or raised what the handler of the keepalive
    parameters lets pass. *)
Definition tolerated (o : outcome unit) : bool :=
  match o with
  | Returns _ => true
  | Raises e => caught_by_any e [AttributeError; OSError]
  end.

(** The exception with which the reader's preparation fails, if it does. *)
Definition setup_failure (w : reader_world) : option exn :=
  match r_settimeout w with
  | Raises e => Some e
  | Returns _ =>
      match r_keepalive w with
      | Raises e => Some e
      | Returns _ => snd (keepalive_parameters w)
      end
  end.

Definition is_close (ev : event) : bool :=
  match ev with Close => true | _ => false end.

Definition is_print (ev : event) : bool :=
  match ev with Print _ => true | _ => false end.

Definition is_recv (ev : event) : bool :=
  match ev with Recv _ => true | _ => false end.

Definition is_send (ev : event) : bool :=
  match ev with Send _ => true | _ => false end.

(** Every send is followed at once by [sleep(3)], or is the last send. *)
Fixpoint paced (t : list event) : bool :=
  match t with
  | [] => true
  | Send _ :: t' =>
      match t' with
      | Sleep secs :: _ => Z.eqb secs 3
      | _ => negb (existsb is_send t')
      end && paced t'
  | _ :: t' => paced t'
  end.

(** The calls of the listener, by kind. *)
Definition is_accept (c : Listener.call) : bool :=
  match c with Listener.Accept => true | _ => false end.

Definition is_say (c : Listener.call) : bool :=
  match c with Listener.Say _ => true | _ => false end.

Definition is_complaint (c : Listener.call) : bool :=
  match c with
  | Listener.Say (Text s :: _) => String.prefix "[ERROR]" s
  | _ => false
  end.

Definition is_start (c : Listener.call) : bool :=
  match c with Listener.Start _ _ _ _ => true | _ => false end.

(** A round of the accept loop in which some call raises. *)
Definition troubled (a : Listener.arrival) : bool :=
  match snd (Listener.welcome a) with
  | Some _ => true
  | None => false
  end.

Definition address_eqb (a b : address) : bool :=
  str_eqb (host a) (host b) && Z.eqb (port a) (port b).

(** Thread starts come as a reader alone or as a reader and then the
    writer of the same connection, all daemons. *)
Fixpoint paired (starts : list Listener.call) : bool :=
  match starts with
  | [] => true
  | Listener.Start Listener.ReadWorker c a true :: rest =>
      match rest with
      | Listener.Start Listener.WriteWorker c' a' true :: rest' =>
          Nat.eqb c c' && address_eqb a a' && paired rest'
      | _ => paired rest
      end
  | _ => false
  end.

(** Two runs that differ at most in the events [keep] leaves out. *)
Definition alike (keep : event -> bool) (r r' : run) : Prop :=
  filter keep (trace r) = filter keep (trace r') /\
  seen r = seen r' /\
  final r = final r'.

(** The calls with which a reader that meets no failure prepares. *)
Definition prepared : list event :=
  [SetTimeout 30; SetSockOpt SO_KEEPALIVE 1; SetSockOpt TCP_KEEPIDLE 60;
   SetSockOpt TCP_KEEPINTVL 10; SetSockOpt TCP_KEEPCNT 3].

(** How many elements of a list satisfy [p]. *)
Definition tally {A : Type} (p : A -> bool) (l : list A) : nat :=
  List.length (filter p l).

(* ================================================================== *)
(** * Facts about the runtime fragments *)
(* ================================================================== *)

Unset Implicit Arguments.

Lemma str_eqb_eq (a b : str) : str_eqb a b = true <-> a = b.
Proof.
  unfold str_eqb. destruct (list_eq_dec N.eq_dec a b); split; congruence.
Qed.

Lemma str_eqb_refl (a : str) : str_eqb a a = true.
Proof. apply str_eqb_eq. reflexivity. Qed.

(** ** The fragments on examples *)

Example decode_euro : decode_ignore [xe2; x82; xac] = [8364%N].
Proof. reflexivity. Qed.

Example decode_emoji : decode_ignore [xf0; x9f; x98; x80] = [128512%N].
Proof. reflexivity. Qed.

Example decode_surrogate_refused : decode_ignore [xed; xa0; x80] = [].
Proof. reflexivity. Qed.

Example decode_overlong_refused : decode_ignore [xc0; x80; x41] = [65%N].
Proof. reflexivity. Qed.

Example decode_truncated : decode_ignore [x61; xe2; x82] = [97%N].
Proof. reflexivity. Qed.

Example decode_broken_sequence : decode_ignore [xe2; x82; x61] = [97%N].
Proof. reflexivity. Qed.

Example encode_mixed :
  encode [97; 233; 8364; 128512]%N =
  Some [x61; xc3; xa9; xe2; x82; xac; xf0; x9f; x98; x80].
Proof. reflexivity. Qed.

Example encode_surrogate_refused : encode [55296%N] = None.
Proof. reflexivity. Qed.

Example strip_both_ends :
  strip ([32; 9; 160]%N ++ lit "a b" ++ [13; 10; 12288]%N) = lit "a b".
Proof. reflexivity. Qed.

Example strip_keeps_zero_width_space : strip [8203%N] = [8203%N].
Proof. reflexivity. Qed.

Example split_pieces :
  split (lit "ab" ++ [NL; NL] ++ lit "c") = [lit "ab"; []; lit "c"].
Proof. reflexivity. Qed.

Example loads_object :
  json_loads (quoted "{ 'type' : 'heartbeat', 'n' : [1, -2, null, true] }") =
  inl (PDict [(lit "type", PStr (lit "heartbeat"));
              (lit "n", PList [PInt 1; PInt (-2); PNone; PBool true])]).
Proof. vm_compute. reflexivity. Qed.

Example loads_last_key_wins :
  json_loads (quoted "{'a': 1, 'b': 2, 'a': 3}") =
  inl (PDict [(lit "a", PInt 3); (lit "b", PInt 2)]).
Proof. vm_compute. reflexivity. Qed.

Example loads_escapes :
  json_loads (quoted "'\u00e9\n\ud83d\ude00'") =
  inl (PStr [233; 10; 128512]%N).
Proof. vm_compute. reflexivity. Qed.

Example loads_int : json_loads (lit "42") = inl (PInt 42).
Proof. vm_compute. reflexivity. Qed.

Example loads_nan : json_loads (lit "NaN") = inl (PFloat (lit "NaN")).
Proof. vm_compute. reflexivity. Qed.

Example loads_leading_zero :
  json_loads (lit "01") = inr (Malformed, lit "Extra data").
Proof. vm_compute. reflexivity. Qed.

Example loads_trailing_comma :
  json_loads (lit "[1,]") = inr (Malformed, lit "Expecting value").
Proof. vm_compute. reflexivity. Qed.

Example loads_unclosed :
  json_loads (lit "[[[[[[") = inr (Malformed, lit "Expecting value").
Proof. vm_compute. reflexivity. Qed.

Example dumps_nested :
  json_dumps (PDict [(lit "a", PList [PInt (-5); PNone; PStr [233; 10]%N])]) =
  Some (quoted "{'a': [-5, null, '\u00e9\n']}").
Proof. vm_compute. reflexivity. Qed.

Example timeout_is_an_oserror : issubclass socket_timeout OSError = true.
Proof. reflexivity. Qed.

Example decode_error_is_no_oserror : issubclass JSONDecodeError OSError = false.
Proof. reflexivity. Qed.

(** ** Whitespace *)

Lemma lstrip_blank (s : str) : forallb isspace s = true -> lstrip s = [].
Proof.
  induction s as [| c s IH]; simpl; [reflexivity |].
  intros H. apply andb_true_iff in H. destruct H as [Hc Hs].
  rewrite Hc. auto.
Qed.

Lemma strip_blank (s : str) : forallb isspace s = true -> strip s = [].
Proof.
  intros H. unfold strip. rewrite (lstrip_blank s H). reflexivity.
Qed.






(** ** Newlines *)

Lemma contains_nl_app (a b : str) :
  contains_nl (a ++ b) = contains_nl a || contains_nl b.
Proof. unfold contains_nl. apply existsb_app. Qed.

Lemma contains_nl_cons_nl (s : str) : contains_nl (NL :: s) = true.
Proof. reflexivity. Qed.

Lemma split_nl_line (line rest : str) :
  contains_nl line = false -> split_nl (line ++ NL :: rest) = (line, rest).
Proof.
  induction line as [| c line IH]; simpl; intros H; [reflexivity |].
  apply orb_false_iff in H. destruct H as [Hc Hl].
  rewrite Hc, (IH Hl). reflexivity.
Qed.

Lemma split_nl_found (s : str) :
  contains_nl s = true ->
  exists line rest,
    s = line ++ NL :: rest /\ contains_nl line = false /\
    split_nl s = (line, rest).
Proof.
  induction s as [| c s IH]; simpl; intros H; [discriminate |].
  destruct (N.eqb c NL) eqn:Hc.
  - apply N.eqb_eq in Hc. subst c.
    exists [], s. repeat split; reflexivity.
  - simpl in H. destruct (IH H) as (line & rest & Hs & Hl & Hsp).
    exists (c :: line), rest. rewrite Hsp. simpl. rewrite Hc, Hl.
    subst s. repeat split; reflexivity.
Qed.

(** ** The decoder always answers *)

Ltac fails := split; [discriminate | intros ? ? ?; discriminate].

Lemma shorter_le {A : Type} (p : parse A) (n m : nat) :
  shorter p n -> n <= m -> shorter p m.
Proof.
  intros [H1 H2] Hle. split; [exact H1 |].
  intros a rest H. specialize (H2 a rest H). lia.
Qed.

Lemma shorter_ok {A : Type} (a : A) (rest : str) (n : nat) :
  List.length rest < n -> shorter (Ok a rest) n.
Proof.
  intros H. split; [discriminate |].
  intros a' rest' E. injection E as _ E. subst rest'. exact H.
Qed.

Lemma shorter_bind {A B : Type} (p : parse A) (k : A -> str -> parse B) (n : nat) :
  shorter p n ->
  (forall a rest, p = Ok a rest -> shorter (k a rest) n) ->
  shorter (bind p k) n.
Proof.
  intros [H1 H2] Hk. destruct p as [a rest | |]; cbn [bind].
  - apply Hk. reflexivity.
  - fails.
  - congruence.
Qed.

Lemma skip_ws_length (s : str) : List.length (skip_ws s) <= List.length s.
Proof.
  induction s as [| c s IH]; cbn; [lia |].
  destruct (is_ws c); cbn; lia.
Qed.

Lemma skip_ws_cons (s : str) (c : char) (r : str) :
  skip_ws s = c :: r -> List.length r < List.length s.
Proof.
  intros H. pose proof (skip_ws_length s) as L. rewrite H in L. cbn in L. lia.
Qed.

Lemma hex4_shorter (s : str) : shorter (hex4 s) (List.length s - 3).
Proof.
  unfold hex4. destruct s as [| a [| b [| c [| d r]]]]; try fails.
  destruct (hex_digit a), (hex_digit b), (hex_digit c), (hex_digit d);
    try fails.
  apply shorter_ok. cbn. lia.
Qed.

Lemma cons_char_shorter (c : char) (p : parse str) (n : nat) :
  shorter p n -> shorter (cons_char c p) n.
Proof.
  intros [H1 H2]. destruct p as [t r | |]; cbn; [| fails | congruence].
  apply shorter_ok. exact (H2 t r eq_refl).
Qed.

Lemma scanstring_shorter (fuel : nat) :
  forall s : str,
    List.length s < fuel -> shorter (scanstring fuel s) (List.length s).
Proof.
  induction fuel as [| fuel IH]; intros s Hf; [lia |].
  cbn [scanstring].
  destruct s as [| c s1]; [fails |].
  cbn [List.length] in *.
  assert (Hrec : forall (c' : char) (s' : str),
            List.length s' <= List.length s1 ->
            shorter (cons_char c' (scanstring fuel s')) (S (List.length s1))).
  { intros c' s' Hs'. apply cons_char_shorter.
    apply (shorter_le (scanstring fuel s') (List.length s')); [| lia].
    apply IH. lia. }
  destruct (c =? QUOTE)%N; [apply shorter_ok; lia |].
  destruct (c =? BACKSLASH)%N.
  - destruct s1 as [| e s2]; [fails |]. cbn [List.length] in *.
    destruct (e =? ch "u")%N.
    + apply shorter_bind.
      { apply (shorter_le _ _ _ (hex4_shorter s2)). lia. }
      intros uni s3 Hh.
      destruct (hex4_shorter s2) as [_ Hlen]. specialize (Hlen uni s3 Hh).
      destruct (is_high uni && startswith [BACKSLASH; ch "u"] s3) eqn:Hp;
        [| apply Hrec; lia].
      apply andb_true_iff in Hp. destruct Hp as [_ Hp].
      destruct s3 as [| x [| y s3']]; try discriminate Hp.
      { cbn in Hp. rewrite andb_false_r in Hp. discriminate. }
      cbn [skipn List.length] in *.
      apply shorter_bind.
      { apply (shorter_le _ _ _ (hex4_shorter s3')). lia. }
      intros uni2 s4 Hh2.
      destruct (hex4_shorter s3') as [_ Hlen2]. specialize (Hlen2 uni2 s4 Hh2).
      destruct (is_low uni2); apply Hrec; cbn [List.length]; lia.
    + destruct (backslash e); [| fails]. apply Hrec. cbn. lia.
  - destruct (c <? 32)%N; [fails |]. apply Hrec. lia.
Qed.

Lemma span_digits_length (s : str) :
  List.length (snd (span_digits s)) <= List.length s.
Proof.
  induction s as [| c s IH]; cbn; [lia |].
  destruct (is_digit c); [| cbn; lia].
  destruct (span_digits s). cbn in *. lia.
Qed.

Lemma span_digits_rest (s ds r : str) :
  span_digits s = (ds, r) -> List.length r <= List.length s.
Proof.
  intros H. pose proof (span_digits_length s) as L. rewrite H in L. exact L.
Qed.

Lemma match_number_shorter (s : str) :
  shorter (match_number s) (List.length s).
Proof.
  unfold match_number.
  assert (Hgo : forall s0 (sign : str),
            List.length s0 <= List.length s ->
            shorter
              (match s0 with
               | [] => Bad
               | c :: r =>
                   if is_digit c then
                     let (int_ds, s1) :=
                       if (c =? ch "0")%N then ([c], r)
                       else let (ds, r') := span_digits r in (c :: ds, r') in
                     let (frac, s2) :=
                       match s1 with
                       | d :: r1 =>
                           if (d =? ch ".")%N then
                             match span_digits r1 with
                             | ([], _) => ([], s1)
                             | (fs, r2) => (d :: fs, r2)
                             end
                           else ([], s1)
                       | [] => ([], s1)
                       end in
                     let (exp, s3) :=
                       match s2 with
                       | e :: r1 =>
                           if ((e =? ch "e") || (e =? ch "E"))%N then
                             let (sg, r2) :=
                               match r1 with
                               | g :: r2 =>
                                   if ((g =? ch "-") || (g =? ch "+"))%N
                                   then ([g], r2) else ([], r1)
                               | [] => ([], r1)
                               end in
                             match span_digits r2 with
                             | ([], _) => ([], s2)
                             | (es, r3) => (e :: sg ++ es, r3)
                             end
                           else ([], s2)
                       | [] => ([], s2)
                       end in
                     match frac, exp with
                     | [], [] =>
                         Ok (PInt (match sign with
                                   | [] => digits_value int_ds
                                   | _ => - digits_value int_ds
                                   end)%Z) s3
                     | _, _ => Ok (PFloat (sign ++ int_ds ++ frac ++ exp)) s3
                     end
                   else Bad
               end) (List.length s)).
  { intros s0 sign Hs0. destruct s0 as [| c r]; [fails |].
    destruct (is_digit c); [| fails]. cbn [List.length] in Hs0.
    assert (H1 : exists int_ds s1,
              (if (c =? ch "0")%N then ([c], r)
               else let (ds, r') := span_digits r in (c :: ds, r')) = (int_ds, s1)
              /\ List.length s1 <= List.length r).
    { destruct (c =? ch "0")%N; [eexists _, _; split; [reflexivity | lia] |].
      destruct (span_digits r) as [ds r'] eqn:E.
      eexists _, _. split; [reflexivity | exact (span_digits_rest r ds r' E)]. }
    destruct H1 as (int_ds & s1 & -> & L1).
    assert (H2 : exists frac s2,
              match s1 with
              | d :: r1 =>
                  if (d =? ch ".")%N then
                    match span_digits r1 with
                    | ([], _) => ([], s1)
                    | (fs, r2) => (d :: fs, r2)
                    end
                  else ([], s1)
              | [] => ([], s1)
              end = (frac, s2) /\ List.length s2 <= List.length s1).
    { destruct s1 as [| d r1]; [eexists _, _; split; [reflexivity | lia] |].
      destruct (d =? ch ".")%N; [| eexists _, _; split; [reflexivity | lia]].
      destruct (span_digits r1) as [fs r2] eqn:E.
      pose proof (span_digits_rest r1 fs r2 E).
      destruct fs; eexists _, _; (split; [reflexivity | cbn; lia]). }
    destruct H2 as (frac & s2 & -> & L2).
    assert (H3 : exists exp s3,
              match s2 with
              | e :: r1 =>
                  if ((e =? ch "e") || (e =? ch "E"))%N then
                    let (sg, r2) :=
                      match r1 with
                      | g :: r2 =>
                          if ((g =? ch "-") || (g =? ch "+"))%N
                          then ([g], r2) else ([], r1)
                      | [] => ([], r1)
                      end in
                    match span_digits r2 with
                    | ([], _) => ([], s2)
                    | (es, r3) => (e :: sg ++ es, r3)
                    end
                  else ([], s2)
              | [] => ([], s2)
              end = (exp, s3) /\ List.length s3 <= List.length s2).
    { destruct s2 as [| e r1]; [eexists _, _; split; [reflexivity | lia] |].
      destruct ((e =? ch "e") || (e =? ch "E"))%N;
        [| eexists _, _; split; [reflexivity | lia]].
      assert (Hsg : exists sg r2,
                match r1 with
                | g :: r2 =>
                    if ((g =? ch "-") || (g =? ch "+"))%N
                    then ([g], r2) else ([], r1)
                | [] => ([], r1)
                end = (sg, r2) /\ List.length r2 <= List.length r1).
      { destruct r1 as [| g r2]; [eexists _, _; split; [reflexivity | lia] |].
        destruct ((g =? ch "-") || (g =? ch "+"))%N;
          eexists _, _; (split; [reflexivity | cbn; lia]). }
      destruct Hsg as (sg & r2 & -> & Lsg).
      destruct (span_digits r2) as [es r3] eqn:E.
      pose proof (span_digits_rest r2 es r3 E).
      destruct es; eexists _, _; (split; [reflexivity | cbn; lia]). }
    destruct H3 as (exp & s3 & -> & L3).
    destruct frac, exp; apply shorter_ok; lia. }
  destruct s as [| c r]; [fails |].
  destruct (c =? ch "-")%N;
    [apply (Hgo r [c]) | apply (Hgo (c :: r) [])]; cbn; lia.
Qed.

Lemma keyword_shorter (k : string) (v : value) (s : str) :
  1 <= String.length k -> s <> [] ->
  shorter (keyword k v s) (List.length s).
Proof.
  intros Hk Hs. unfold keyword.
  destruct (startswith (lit k) s); [| fails].
  apply shorter_ok. rewrite length_skipn.
  destruct s; [congruence | cbn [List.length]; lia].
Qed.

Lemma scan_shorter (fuel : nat) :
  (forall s, 2 * List.length s + 1 <= fuel ->
             shorter (scan_once fuel s) (List.length s)) /\
  (forall s pairs, 2 * List.length s + 2 <= fuel ->
                   shorter (object_loop fuel s pairs) (List.length s)) /\
  (forall s items, 2 * List.length s + 2 <= fuel ->
                   shorter (array_loop fuel s items) (List.length s)).
Proof.
  induction fuel as [| fuel (IHs & IHo & IHa)].
  - repeat split; intros; lia.
  - split; [| split].
    + intros s Hf. cbn [scan_once].
      destruct s as [| c r]; [fails |].
      cbn [List.length] in Hf.
      assert (Hne : c :: r <> []) by discriminate.
      destruct (c =? QUOTE)%N.
      { apply shorter_bind.
        - apply (shorter_le _ _ _ (scanstring_shorter _ r (Nat.lt_succ_diag_r _))).
          cbn. lia.
        - intros t rest H.
          destruct (scanstring_shorter _ r (Nat.lt_succ_diag_r _)) as [_ L].
          specialize (L t rest H). apply shorter_ok. cbn. lia. }
      destruct (c =? ch "{")%N.
      { destruct (skip_ws r) as [| c1 r1] eqn:E; [fails |].
        apply skip_ws_cons in E.
        destruct (c1 =? ch "}")%N; [apply shorter_ok; cbn; lia |].
        destruct (c1 =? QUOTE)%N; [| fails].
        apply (shorter_le _ (List.length r1)); [| cbn; lia].
        apply IHo. lia. }
      destruct (c =? ch "[")%N.
      { destruct (skip_ws r) as [| c1 r1] eqn:E; [fails |].
        apply skip_ws_cons in E.
        destruct (c1 =? ch "]")%N; [apply shorter_ok; cbn; lia |].
        apply (shorter_le _ (List.length (c1 :: r1))); [| cbn; lia].
        apply IHa. cbn. lia. }
      destruct (startswith (lit "null") (c :: r));
        [apply keyword_shorter; [cbn; lia | exact Hne] |].
      destruct (startswith (lit "true") (c :: r));
        [apply keyword_shorter; [cbn; lia | exact Hne] |].
      destruct (startswith (lit "false") (c :: r));
        [apply keyword_shorter; [cbn; lia | exact Hne] |].
      pose proof (match_number_shorter (c :: r)) as Hn.
      destruct (match_number (c :: r)) as [v rest | |]; [exact Hn | | exact Hn].
      destruct (startswith (lit "NaN") (c :: r));
        [apply keyword_shorter; [cbn; lia | exact Hne] |].
      destruct (startswith (lit "Infinity") (c :: r));
        [apply keyword_shorter; [cbn; lia | exact Hne] |].
      destruct (startswith (lit "-Infinity") (c :: r));
        [apply keyword_shorter; [cbn; lia | exact Hne] |].
      fails.
    + intros s pairs Hf. cbn [object_loop].
      apply shorter_bind.
      { apply scanstring_shorter. lia. }
      intros key s1 Hkey.
      destruct (scanstring_shorter _ s (Nat.lt_succ_diag_r _)) as [_ L1].
      specialize (L1 key s1 Hkey).
      destruct (skip_ws s1) as [| c s2] eqn:E1; [fails |].
      apply skip_ws_cons in E1.
      destruct (c =? ch ":")%N; [| fails].
      pose proof (skip_ws_length s2) as L2.
      apply shorter_bind.
      { apply (shorter_le _ (List.length (skip_ws s2))); [| lia].
        apply IHs. lia. }
      intros v s3 Hv.
      destruct (IHs (skip_ws s2) ltac:(lia)) as [_ L3].
      specialize (L3 v s3 Hv).
      destruct (skip_ws s3) as [| c1 s4] eqn:E3; [fails |].
      apply skip_ws_cons in E3.
      destruct (c1 =? ch "}")%N; [apply shorter_ok; lia |].
      destruct (c1 =? ch ",")%N; [| fails].
      destruct (skip_ws s4) as [| c2 s5] eqn:E4; [fails |].
      apply skip_ws_cons in E4.
      destruct (c2 =? QUOTE)%N; [| fails].
      apply (shorter_le _ (List.length s5)); [| lia].
      apply IHo. lia.
    + intros s items Hf. cbn [array_loop].
      apply shorter_bind.
      { apply IHs. lia. }
      intros v s1 Hv.
      destruct (IHs s ltac:(lia)) as [_ L1]. specialize (L1 v s1 Hv).
      destruct (skip_ws s1) as [| c s2] eqn:E1; [fails |].
      apply skip_ws_cons in E1.
      destruct (c =? ch "]")%N; [apply shorter_ok; lia |].
      destruct (c =? ch ",")%N; [| fails].
      pose proof (skip_ws_length s2) as L2.
      apply (shorter_le _ (List.length (skip_ws s2))); [| lia].
      apply IHa. lia.
Qed.

(** [json.loads] on any text returns an object or raises [JSONDecodeError]:
    the nesting budget of the model is never used up. *)
Lemma json_loads_total (s : str) :
  (exists v, json_loads s = inl v) \/ (exists text, json_loads s = inr (Malformed, text)).
Proof.
  unfold json_loads.
  destruct (startswith [65279%N] s); [right; eexists; reflexivity |].
  pose proof (skip_ws_length s) as L.
  destruct (scan_shorter (S (2 * List.length s))) as (Hs & _ & _).
  destruct (Hs (skip_ws s) ltac:(lia)) as [Hd _].
  destruct (scan_once (S (2 * List.length s)) (skip_ws s)) as [v rest | |].
  - destruct (skip_ws rest); [left | right]; eexists; reflexivity.
  - right. eexists. reflexivity.
  - congruence.
Qed.





(** ** The extraction loop *)

Section Extraction.

Variable loads : decoder.
Variable addr : address.

Lemma drain_eq (fuel : nat) (buffer : str) :
  drain loads addr fuel buffer =
  if contains_nl buffer then
    match fuel with
    | O => Step [] [] Starved buffer
    | S fuel =>
        let (line, buffer) := split_nl buffer in
        if truthy (strip line) then
          match dispatch loads addr line with
          | (out, Some e) => Step out [line] (Throw e) buffer
          | (out, None) => then_ out line (drain loads addr fuel buffer)
          end
        else then_ [] line (drain loads addr fuel buffer)
    end
  else Step [] [] Normal buffer.
Proof. destruct fuel; reflexivity. Qed.

(** The bound on the iterations does not matter once it reaches the
    length of the buffer: the loop ends by its own test. *)
Lemma drain_fuel (f1 : nat) :
  forall (f2 : nat) (buffer : str),
    List.length buffer <= f1 -> List.length buffer <= f2 ->
    drain loads addr f1 buffer = drain loads addr f2 buffer.
Proof.
  induction f1 as [| f1 IH]; intros f2 buffer H1 H2.
  - destruct buffer; [| simpl in H1; lia].
    rewrite !drain_eq. reflexivity.
  - rewrite (drain_eq (S f1)), (drain_eq f2).
    destruct (contains_nl buffer) eqn:Hnl; [| reflexivity].
    destruct (split_nl_found buffer Hnl) as (line & rest & Hb & _ & Hsp).
    assert (Hlen : List.length buffer = List.length line + S (List.length rest)).
    { subst buffer. rewrite length_app. reflexivity. }
    destruct f2 as [| f2]; [lia |].
    rewrite Hsp.
    rewrite (IH f2 rest) by lia. reflexivity.
Qed.

(** One iteration of the loop on a buffer that starts with a complete
    line. *)
Lemma extract_line (line rest : str) :
  contains_nl line = false ->
  extract loads addr (line ++ NL :: rest) =
  if truthy (strip line) then
    match dispatch loads addr line with
    | (out, Some e) => Step out [line] (Throw e) rest
    | (out, None) => then_ out line (extract loads addr rest)
    end
  else then_ [] line (extract loads addr rest).
Proof.
  intros Hl. unfold extract.
  rewrite length_app. simpl List.length. rewrite Nat.add_succ_r.
  rewrite drain_eq.
  rewrite contains_nl_app, contains_nl_cons_nl, orb_true_r.
  rewrite (split_nl_line line rest Hl).
  rewrite (drain_fuel (List.length line + List.length rest)
             (List.length rest) rest) by lia.
  reflexivity.
Qed.

(** The bound the reader gives the loop is enough: the loop always ends by
    its own test or by an exception. *)
Lemma drain_enough (fuel : nat) :
  forall buffer : str,
    List.length buffer <= fuel ->
    leaves (drain loads addr fuel buffer) <> Starved.
Proof.
  induction fuel as [| fuel IH]; intros buffer Hlen; rewrite drain_eq.
  - destruct buffer; [discriminate | cbn in Hlen; lia].
  - destruct (contains_nl buffer) eqn:Hnl; [| discriminate].
    destruct (split_nl_found buffer Hnl) as (line & rest & Hb & _ & Hsp).
    rewrite Hsp. subst buffer. rewrite length_app in Hlen. cbn in Hlen.
    assert (Hrest : List.length rest <= fuel) by lia.
    destruct (truthy (strip line)).
    + destruct (dispatch loads addr line) as [out [e |]]; [discriminate |].
      cbn. exact (IH rest Hrest).
    + cbn. exact (IH rest Hrest).
Qed.

Lemma extract_ends (buffer : str) : leaves (extract loads addr buffer) <> Starved.
Proof. apply drain_enough. apply le_n. Qed.

End Extraction.

(* ================================================================== *)
(** * The reader: one line at a time *)
(* ================================================================== *)


Section Lines.

Variable loads : decoder.
Variable addr : address.





(** C8.  A line that is empty or holds only whitespace is dropped: the
    loop prints nothing for it and goes on with the rest of the buffer.
    The decoder is not called on it: two decoders that agree on every line
    that passes the guard make the loop behave the same on every buffer,
    whatever they would do on blank lines. *)
Theorem blank_line_skipped (line rest : str) :
  contains_nl line = false ->
  forallb isspace line = true ->
  extract loads addr (line ++ NL :: rest) =
    then_ [] line (extract loads addr rest) /\
  (forall loads' : decoder,
     (forall l, truthy (strip l) = true -> loads' l = loads l) ->
     forall buffer, extract loads' addr buffer = extract loads addr buffer).
Proof.
  intros Hnl Hblank. split.
  - rewrite (extract_line loads addr line rest Hnl).
    rewrite (strip_blank line Hblank). reflexivity.
  - intros loads' Hagree buffer. unfold extract.
    generalize (List.length buffer). intros fuel.
    revert buffer. induction fuel as [| fuel IH]; intros buffer.
    + rewrite !drain_eq. reflexivity.
    + rewrite (drain_eq loads' addr (S fuel)), (drain_eq loads addr (S fuel)).
      destruct (contains_nl buffer); [| reflexivity].
      destruct (split_nl buffer) as [l b].
      destruct (truthy (strip l)) eqn:Hg.
      * unfold dispatch. rewrite (Hagree l Hg), IH. reflexivity.
      * rewrite IH. reflexivity.
Qed.

End Lines.

(** ** With the decoder of the standard library *)

Section StandardDecoder.

Variable addr : address.



End StandardDecoder.

(* ================================================================== *)
(** * The reader: the receive loop *)
(* ================================================================== *)

Section Receiving.

Variable loads : decoder.
Variable addr : address.

(** An exception that leaves the parse-and-log statement is none of those
    the handlers of the receive loop name. *)
Lemma dispatch_raises (line : str) (out : list event) (e : exn) :
  dispatch loads addr line = (out, Some e) ->
  caught_by e OSError = false.
Proof.
  unfold dispatch.
  destruct (loads line) as [v | [f m]].
  - destruct v; cbn [get];
      try (intros H; injection H as _ H; subst e; reflexivity).
    destruct (eq_str _ _); discriminate.
  - destruct f; cbn; intros H; try discriminate;
      injection H as _ H; subst e; reflexivity.
Qed.

Lemma not_oserror (e : exn) :
  caught_by e OSError = false ->
  caught_by e socket_timeout = false /\
  caught_by e ConnectionResetError = false /\
  caught_by e BrokenPipeError = false.
Proof.
  destruct e as [c m]. destruct c; cbn; intros H;
    try discriminate; repeat split; reflexivity.
Qed.

Lemma drain_ends (fuel : nat) :
  forall buffer : str,
    match leaves (drain loads addr fuel buffer) with
    | Normal => contains_nl (holds (drain loads addr fuel buffer)) = false
    | Throw e => caught_by e OSError = false
    | Break => False
    | Starved => True
    end.
Proof.
  induction fuel as [| fuel IH]; intros buffer; rewrite drain_eq.
  - destruct (contains_nl buffer) eqn:H; cbn; auto.
  - destruct (contains_nl buffer) eqn:H; cbn; auto.
    destruct (split_nl buffer) as [line rest].
    destruct (truthy (strip line)).
    + destruct (dispatch loads addr line) as [out [e |]] eqn:Hd; cbn.
      * exact (dispatch_raises line out e Hd).
      * apply IH.
    + cbn. apply IH.
Qed.

Lemma final_emit (evs : list event) (ls : list str) (r : run) :
  final (emit evs ls r) = final r.
Proof. reflexivity. Qed.

Lemma final_closing (c : outcome unit) (after : list event) (r : run) :
  final (closing c after r) = final r.
Proof.
  unfold closing. destruct (final r) eqn:E; try exact E; destruct c; reflexivity.
Qed.

(** The loop keeps the buffer free of newlines from one [recv] to the
    next. *)
Lemma read_loop_waits (recvs : list (outcome bytes)) :
  forall buffer b : str,
    contains_nl buffer = false ->
    final (read_loop loads addr recvs buffer) = InRecv b ->
    contains_nl b = false.
Proof.
  induction recvs as [| o recvs IH]; intros buffer b Hbuf; cbn [read_loop].
  - cbn. intros H. injection H as H. subst b. exact Hbuf.
  - destruct o as [chunk | e]; cbn [receive].
    + destruct (negb (truthy (decode_ignore chunk))); cbn [leaves did bound holds];
        [cbn; discriminate |].
      pose proof (drain_ends (List.length (buffer ++ decode_ignore chunk))
                    (buffer ++ decode_ignore chunk)) as Hend.
      fold (extract loads addr (buffer ++ decode_ignore chunk)) in Hend.
      destruct (leaves (extract loads addr (buffer ++ decode_ignore chunk)))
        as [| | e |].
      * rewrite final_emit. apply IH. exact Hend.
      * contradiction.
      * destruct (not_oserror e Hend) as (H1 & H2 & H3).
        rewrite H1, H2, H3. cbn. discriminate.
      * cbn. discriminate.
    + cbn [leaves did bound holds].
      destruct (caught_by e socket_timeout).
      * rewrite final_emit. apply IH. exact Hbuf.
      * destruct (caught_by e ConnectionResetError); [cbn; discriminate |].
        destruct (caught_by e BrokenPipeError); cbn; discriminate.
Qed.

(** A [recv] that times out changes nothing: the reader calls [recv]
    again with the same buffer. *)
Lemma recv_timeout_continues
  (text : str) (recvs : list (outcome bytes)) (buffer : str) :
  read_loop loads addr (Raises (Raise socket_timeout text) :: recvs) buffer =
  emit [Recv 1024] [] (read_loop loads addr recvs buffer).
Proof. reflexivity. Qed.

(** The reader always makes progress: it is never left without fuel. *)
Lemma read_loop_runs (recvs : list (outcome bytes)) :
  forall buffer : str, final (read_loop loads addr recvs buffer) <> Stuck.
Proof.
  induction recvs as [| o recvs IH]; intros buffer; cbn [read_loop];
    [discriminate |].
  destruct o as [chunk | e]; cbn [receive].
  - destruct (negb (truthy (decode_ignore chunk))); cbn [leaves did bound holds];
      [discriminate |].
    pose proof (extract_ends loads addr (buffer ++ decode_ignore chunk)) as Hend.
    destruct (leaves (extract loads addr (buffer ++ decode_ignore chunk)))
      as [| | e |]; try discriminate.
    + rewrite final_emit. apply IH.
    + destruct (caught_by e socket_timeout); [rewrite final_emit; apply IH |].
      destruct (caught_by e ConnectionResetError); [discriminate |].
      destruct (caught_by e BrokenPipeError); discriminate.
    + contradiction.
  - cbn [leaves did bound holds].
    destruct (caught_by e socket_timeout); [rewrite final_emit; apply IH |].
    destruct (caught_by e ConnectionResetError); [discriminate |].
    destruct (caught_by e BrokenPipeError); discriminate.
Qed.

Lemma read_runs (w : reader_world) : final (read loads addr w) <> Stuck.
Proof.
  unfold read. rewrite final_closing.
  assert (Hesc : forall t ls e,
            final (if caught_by e Exception
                   then Run (t ++ [Print (read_error_log addr e)]) ls Returned
                   else Run t ls (Escaped e)) <> Stuck).
  { intros t ls e. destruct (caught_by e Exception); discriminate. }
  destruct (r_settimeout w) as [u | e]; [| apply Hesc].
  destruct (r_keepalive w) as [u' | e]; [| apply Hesc].
  destruct (keepalive_parameters w) as [evs [e |]]; [apply Hesc |].
  pose proof (read_loop_runs (r_recv w) []) as Hloop.
  destruct (read_loop loads addr (r_recv w) []) as [t ls f].
  cbn [emit final trace seen] in *.
  destruct f as [| e | b0 | |]; try discriminate.
  - apply Hesc.
  - contradiction.
Qed.

(** C7.  Whenever the reader is waiting in [conn.recv] for more data, the
    receive buffer holds no newline: what it holds is at most the one line
    that is not complete yet. *)
Theorem buffer_has_no_newline (w : reader_world) (b : str) :
  final (read loads addr w) = InRecv b ->
  contains_nl b = false.
Proof.
  unfold read. rewrite final_closing.
  assert (Hesc : forall t ls e,
            final (if caught_by e Exception
                   then Run (t ++ [Print (read_error_log addr e)]) ls Returned
                   else Run t ls (Escaped e)) <> InRecv b).
  { intros t ls e. destruct (caught_by e Exception); discriminate. }
  destruct (r_settimeout w) as [u | e]; [| intros H; exact (False_ind _ (Hesc _ _ _ H))].
  destruct (r_keepalive w) as [u' | e]; [| intros H; exact (False_ind _ (Hesc _ _ _ H))].
  destruct (keepalive_parameters w) as [evs [e |]];
    [intros H; exact (False_ind _ (Hesc _ _ _ H)) |].
  pose proof (read_loop_waits (r_recv w) [] b eq_refl) as Hloop.
  destruct (read_loop loads addr (r_recv w) []) as [t ls f].
  cbn [emit final trace seen] in *.
  destruct f as [| e | b0 | |]; try discriminate.
  - intros H. exact (False_ind _ (Hesc _ _ _ H)).
  - exact Hloop.
Qed.

(** C9.  A line that passes the guard and that [json.loads] turns into
    an object other than a dict (an int, say) makes [msg_json.get] raise
    [AttributeError].  The handler for malformed JSON does not take it, nor
    do the handlers of the receive loop: the reader stops there, whatever
    follows the line in the buffer and whatever the socket would deliver
    next; it prints the ERROR line, closes the connection and returns. *)
Theorem non_dict_line_ends_reader
  (line rest : str) (v : value) (chunk : bytes)
  (more : list (outcome bytes)) (on_close : outcome unit) :
  contains_nl line = false ->
  truthy (strip line) = true ->
  loads line = inl v ->
  is_dict v = false ->
  decode_ignore chunk = line ++ NL :: rest ->
  let e := Raise AttributeError
             (lit "'" ++ type_name v ++ lit "' object has no attribute 'get'") in
  dispatch loads addr line = ([], Some e) /\
  caught_by e JSONDecodeError = false /\
  read loads addr
    (ReaderWorld (Returns tt) (Returns tt) (Returns tt) (Returns tt)
       (Returns tt) (Returns chunk :: more) on_close) =
  Run [SetTimeout 30; SetSockOpt SO_KEEPALIVE 1; SetSockOpt TCP_KEEPIDLE 60;
       SetSockOpt TCP_KEEPINTVL 10; SetSockOpt TCP_KEEPCNT 3;
       Recv 1024;
       Print [Text "[ERROR] read from "; FAddr addr; Text " -> "; FExn e];
       Close;
       Print [Text "[INFO] Connection closed with "; FAddr addr]]
      [line] Returned.
Proof.
  intros Hnl Hguard Hloads Hv Hchunk e.
  assert (Hd : dispatch loads addr line = ([], Some e)).
  { unfold dispatch. rewrite Hloads.
    destruct v; try discriminate Hv; reflexivity. }
  split; [exact Hd | split; [reflexivity |]].
  unfold read. cbn [r_settimeout r_keepalive r_recv r_close].
  cbn [keepalive_parameters r_keepidle r_keepintvl r_keepcnt].
  cbn [read_loop receive]. rewrite Hchunk.
  replace (truthy (line ++ NL :: rest)) with true by (destruct line; reflexivity).
  cbn [negb app].
  rewrite (extract_line loads addr line rest Hnl), Hguard, Hd.
  cbn [leaves did bound holds].
  destruct on_close; reflexivity.
Qed.

End Receiving.

(* ================================================================== *)
(** * The writer *)
(* ================================================================== *)


Lemma wire_payload : wire payload = Some account_json.
Proof. vm_compute. reflexivity. Qed.

Section Sending.

Variable addr : address.

Lemma write_loop_blocked : write_loop addr [] = Run [] [] InSend.
Proof. cbn [write_loop]. rewrite wire_payload. reflexivity. Qed.

Lemma write_loop_sent (k : N) (sends : list (outcome N)) :
  write_loop addr (Returns k :: sends) =
  emit [Send account_json; Sleep 3] [] (write_loop addr sends).
Proof. cbn [write_loop]. rewrite wire_payload. reflexivity. Qed.

Lemma write_loop_failed (e : exn) (sends : list (outcome N)) :
  caught_by e OSError = true ->
  write_loop addr (Raises e :: sends) =
  Run [Send account_json; Print (ending_log addr e)] [] Returned.
Proof.
  intros H. cbn [write_loop]. rewrite wire_payload. cbn [transmit].
  unfold caught_by_any. cbn [existsb]. rewrite H, !orb_true_r. reflexivity.
Qed.

(** [socket.timeout] derives from [OSError]: the first handler of the
    loop takes every timeout, and the second one is never reached with
    one. *)
Lemma timeout_is_oserror (e : exn) :
  caught_by e socket_timeout = true -> caught_by e OSError = true.
Proof.
  destruct e as [c m]. destruct c; cbn; intros H; try discriminate; reflexivity.
Qed.


Lemma write_loop_cycles (returns : list N) (sends : list (outcome N)) :
  write_loop addr (map (@Returns N) returns ++ sends) =
  emit (cycles returns) [] (write_loop addr sends).
Proof.
  induction returns as [| k returns IH]; cbn [map app cycles flat_map].
  - destruct (write_loop addr sends). reflexivity.
  - rewrite write_loop_sent, IH. unfold emit. cbn. reflexivity.
Qed.

(** Whatever the socket does, every send carries the same bytes. *)
Lemma write_loop_sends (sends : list (outcome N)) :
  Forall carries_account (trace (write_loop addr sends)).
Proof.
  induction sends as [| o sends IH]; cbn [write_loop]; rewrite wire_payload.
  - constructor.
  - destruct o as [k | e]; cbn [transmit].
    + cbn [emit trace app]. repeat constructor. exact IH.
    + destruct (caught_by_any e _); [repeat constructor |].
      destruct (caught_by e socket_timeout); cbn [emit trace app];
        repeat constructor. exact IH.
Qed.

Lemma write_sends (w : writer_world) :
  Forall carries_account (trace (write addr w)).
Proof.
  assert (Hc : forall c r, Forall carries_account (trace r) ->
                           Forall carries_account (trace (closing c [] r))).
  { intros c r Hr. unfold closing.
    destruct (final r); try exact Hr;
      destruct c; cbn [trace]; apply Forall_app; split;
        try exact Hr; repeat constructor. }
  unfold write. apply Hc.
  destruct (w_settimeout w) as [u | e]; cbn [final emit trace].
  - pose proof (write_loop_sends (w_send w)) as Hl.
    destruct (write_loop addr (w_send w)) as [t ls f]. cbn [final trace seen app] in *.
    destruct f as [| e | b | |]; cbn [trace]; try (constructor; [exact I | exact Hl]).
    destruct (caught_by e Exception); cbn [trace].
    + constructor; [exact I |].
      apply Forall_app. split; [exact Hl | repeat constructor].
    + constructor; [exact I | exact Hl].
  - destruct (caught_by e Exception); cbn [trace]; repeat constructor.
Qed.

(** The writer is never left without fuel: its model has none. *)
Lemma write_loop_runs (sends : list (outcome N)) :
  final (write_loop addr sends) <> Stuck.
Proof.
  induction sends as [| o sends IH]; cbn [write_loop]; rewrite wire_payload;
    [discriminate |].
  destruct o as [k | e]; cbn [transmit]; [exact IH |].
  destruct (caught_by_any e _); [discriminate |].
  destruct (caught_by e socket_timeout); [exact IH | discriminate].
Qed.

Lemma write_runs (w : writer_world) : final (write addr w) <> Stuck.
Proof.
  unfold write. rewrite final_closing.
  destruct (w_settimeout w) as [u | e]; cbn [final emit trace].
  - pose proof (write_loop_runs (w_send w)) as Hl.
    destruct (write_loop addr (w_send w)) as [t ls f]. cbn [final trace seen] in *.
    destruct f as [| e | b | |]; try discriminate; [| contradiction].
    destruct (caught_by e Exception); discriminate.
  - destruct (caught_by e Exception); discriminate.
Qed.
(** C2 (the code at a send that times out).  When [conn.send] raises
    [socket.timeout], the handler for [OSError], which comes first, takes
    it: the writer prints the "Write thread ending" line, leaves the loop,
    closes the connection and returns.  No later send is attempted. *)
Theorem send_timeout_ends_writer
  (text : str) (more : list (outcome N)) (on_close : outcome unit) :
  write addr
    (WriterWorld (Returns tt) (Raises (Raise socket_timeout text) :: more)
       on_close) =
  Run [SetTimeout 30; Send account_json;
       Print [Text "[INFO] Write thread ending for "; FAddr addr; Text ": ";
              FExn (Raise socket_timeout text)];
       Close] [] Returned.
Proof.
  unfold write. cbn [w_settimeout w_send w_close].
  rewrite write_loop_failed by reflexivity.
  destruct on_close; reflexivity.
Qed.

(** C3.  What the writer hands to [conn.send] is each time, on every
    connection, the same bytes: [json.dumps] of the dict with the one key
    ['cmd'] and the value ['ACCOUNT'], encoded as UTF-8, with nothing after
    the closing brace; decoding and parsing them gives that dict back.  As
    long as the sends succeed, the writer does one send and one [sleep(3)]
    per round, in that order and nothing else; when a send fails with an
    [OSError] the writer logs it, closes the connection and returns. *)
Theorem writer_sends_account_each_cycle
  (returns : list N) (e : exn) (on_close : outcome unit) :
  caught_by e OSError = true ->
  wire payload = Some account_json /\
  json_loads (decode_ignore account_json) = inl payload /\
  (forall w : writer_world, Forall carries_account (trace (write addr w))) /\
  write addr (WriterWorld (Returns tt) (map (@Returns N) returns) on_close) =
    Run (SetTimeout 30 ::
         flat_map (fun _ => [Send account_json; Sleep 3]) returns)
        [] InSend /\
  write addr
    (WriterWorld (Returns tt) (map (@Returns N) returns ++ [Raises e]) on_close) =
    Run (SetTimeout 30 ::
         flat_map (fun _ => [Send account_json; Sleep 3]) returns ++
         [Send account_json; Print (ending_log addr e); Close])
        [] Returned.
Proof.
  intros He. split; [exact wire_payload |].
  split; [vm_compute; reflexivity |].
  split; [exact write_sends |].
  split.
  - unfold write. cbn [w_settimeout w_send w_close].
    rewrite <- (app_nil_r (map (@Returns N) returns)).
    rewrite write_loop_cycles, write_loop_blocked.
    unfold emit, closing. cbn. rewrite app_nil_r. reflexivity.
  - unfold write. cbn [w_settimeout w_send w_close].
    rewrite write_loop_cycles, (write_loop_failed e [] He).
    unfold emit, closing. cbn.
    destruct on_close; cbn; rewrite <- app_assoc; reflexivity.
Qed.

(** C10.  Once [settimeout] has returned, the first thing the writer does
    is the send: with no answer from the socket yet it is blocked in that
    send, having slept not at all; otherwise its trace starts with the
    send.  And every round of the loop is a send followed by the sleep. *)
Theorem writer_sends_before_sleeping (w : writer_world) :
  w_settimeout w = Returns tt ->
  match w_send w with
  | [] => write addr w = Run [SetTimeout 30] [] InSend
  | _ :: _ =>
      exists rest,
        trace (write addr w) = SetTimeout 30 :: Send account_json :: rest
  end /\
  (forall (k : N) (sends : list (outcome N)),
     write_loop addr (Returns k :: sends) =
     emit [Send account_json; Sleep 3] [] (write_loop addr sends)).
Proof.
  intros Hset. split; [| exact write_loop_sent].
  unfold write. rewrite Hset.
  destruct (w_send w) as [| o sends].
  - rewrite write_loop_blocked. reflexivity.
  - assert (Hloop : exists t ls f,
              write_loop addr (o :: sends) = Run (Send account_json :: t) ls f).
    { destruct o as [k | e].
      - rewrite write_loop_sent.
        destruct (write_loop addr sends) as [t ls f].
        exists (Sleep 3 :: t), ls, f. reflexivity.
      - cbn [write_loop]. rewrite wire_payload. cbn [transmit].
        destruct (caught_by_any e _); [eexists _, _, _; reflexivity |].
        destruct (caught_by e socket_timeout).
        + destruct (write_loop addr sends) as [t ls f].
          eexists _, _, _. reflexivity.
        + eexists _, _, _. reflexivity. }
    destruct Hloop as (t & ls & f & Hloop). rewrite Hloop.
    unfold emit. cbn [trace seen final app].
    destruct f as [| e | b | |]; cbn [final trace seen];
      try destruct (caught_by e Exception);
      unfold closing; cbn [final trace seen app];
      try destruct (w_close w); eexists; reflexivity.
Qed.

End Sending.

(* ================================================================== *)
(** * Framing *)
(* ================================================================== *)


Lemma split_not_nil (s : str) : split s <> [].
Proof.
  induction s as [| c s IH]; cbn; [discriminate |].
  destruct (N.eqb c NL); [discriminate |].
  destruct (split s); discriminate.
Qed.

Lemma split_line (line rest : str) :
  contains_nl line = false ->
  split (line ++ NL :: rest) = line :: split rest.
Proof.
  induction line as [| c line IH]; cbn; intros H; [reflexivity |].
  apply orb_false_iff in H. destruct H as [Hc Hl].
  rewrite Hc, (IH Hl). reflexivity.
Qed.

Lemma split_partial (s : str) : contains_nl s = false -> split s = [s].
Proof.
  induction s as [| c s IH]; cbn; intros H; [reflexivity |].
  apply orb_false_iff in H. destruct H as [Hc Hs].
  rewrite Hc, (IH Hs). reflexivity.
Qed.

Lemma complete_lines_line (line rest : str) :
  contains_nl line = false ->
  complete_lines (line ++ NL :: rest) = line :: complete_lines rest.
Proof.
  intros H. unfold complete_lines. rewrite (split_line line rest H).
  pose proof (split_not_nil rest). cbn. destruct (split rest); congruence.
Qed.

Lemma pending_line (line rest : str) :
  contains_nl line = false -> pending (line ++ NL :: rest) = pending rest.
Proof.
  intros H. unfold pending. rewrite (split_line line rest H).
  pose proof (split_not_nil rest). cbn. destruct (split rest); congruence.
Qed.

Lemma complete_lines_partial (s : str) :
  contains_nl s = false -> complete_lines s = [].
Proof. intros H. unfold complete_lines. rewrite (split_partial s H). reflexivity. Qed.

Lemma pending_partial (s : str) : contains_nl s = false -> pending s = s.
Proof. intros H. unfold pending. rewrite (split_partial s H). reflexivity. Qed.

Lemma pending_no_nl (n : nat) :
  forall s : str, List.length s <= n -> contains_nl (pending s) = false.
Proof.
  induction n as [| n IH]; intros s Hn.
  - destruct s; [reflexivity | cbn in Hn; lia].
  - destruct (contains_nl s) eqn:Hnl.
    + destruct (split_nl_found s Hnl) as (line & rest & Hs & Hl & _). subst s.
      rewrite (pending_line line rest Hl). apply IH.
      rewrite length_app in Hn. cbn in Hn. lia.
    + rewrite (pending_partial s Hnl). exact Hnl.
Qed.

(** Splitting a text that arrives in two parts: the complete lines of the
    first part, then those of what was pending followed by the second. *)
Lemma split_in_two (n : nat) :
  forall s t : str,
    List.length s <= n ->
    complete_lines (s ++ t) = complete_lines s ++ complete_lines (pending s ++ t) /\
    pending (s ++ t) = pending (pending s ++ t).
Proof.
  induction n as [| n IH]; intros s t Hn.
  - destruct s; [split; reflexivity | cbn in Hn; lia].
  - destruct (contains_nl s) eqn:Hnl.
    + destruct (split_nl_found s Hnl) as (line & rest & Hs & Hl & _). subst s.
      rewrite length_app in Hn. cbn in Hn.
      destruct (IH rest t ltac:(lia)) as [IH1 IH2].
      rewrite <- app_assoc. cbn [app].
      rewrite !(complete_lines_line line _ Hl), !(pending_line line _ Hl).
      rewrite IH1, IH2. split; reflexivity.
    + rewrite (complete_lines_partial s Hnl), (pending_partial s Hnl).
      split; reflexivity.
Qed.

Section Framing.

Variable loads : decoder.
Variable addr : address.


(** On a buffer whose lines are all quiet the loop binds [line] to each
    complete line in turn and leaves the pending piece. *)
Lemma drain_frames (fuel : nat) :
  forall buffer : str,
    List.length buffer <= fuel ->
    Forall (quiet loads addr) (complete_lines buffer) ->
    bound (drain loads addr fuel buffer) = complete_lines buffer /\
    leaves (drain loads addr fuel buffer) = Normal /\
    holds (drain loads addr fuel buffer) = pending buffer.
Proof.
  induction fuel as [| fuel IH]; intros buffer Hlen Hq; rewrite drain_eq.
  - destruct buffer; [| cbn in Hlen; lia]. repeat split; reflexivity.
  - destruct (contains_nl buffer) eqn:Hnl.
    + destruct (split_nl_found buffer Hnl) as (line & rest & Hs & Hl & Hsp).
      rewrite Hsp. subst buffer.
      rewrite (complete_lines_line line rest Hl) in Hq |- *.
      rewrite (pending_line line rest Hl).
      rewrite length_app in Hlen. cbn in Hlen.
      inversion Hq as [| l ls Hline Hrest]; subst.
      destruct (IH rest ltac:(lia) Hrest) as (IH1 & IH2 & IH3).
      destruct (truthy (strip line)) eqn:Hg.
      * specialize (Hline Hg).
        destruct (dispatch loads addr line) as [out [e |]]; [discriminate |].
        cbn. rewrite IH1, IH2, IH3. repeat split; reflexivity.
      * cbn. rewrite IH1, IH2, IH3. repeat split; reflexivity.
    + rewrite (complete_lines_partial buffer Hnl), (pending_partial buffer Hnl).
      repeat split; reflexivity.
Qed.

(** Framing is independent of how the decoded text is cut into chunks:
    when every chunk decodes to some text and no line makes the dispatch
    raise, the reader binds [line] to the complete lines of the
    concatenated text, in order, and waits with the pending piece. *)
Lemma framing_of_decoded_text (chunks : list bytes) :
  forall buffer : str,
    contains_nl buffer = false ->
    Forall (fun c => truthy (decode_ignore c) = true) chunks ->
    Forall (quiet loads addr) (complete_lines (buffer ++ List.concat (map decode_ignore chunks))) ->
    let r := read_loop loads addr (map (@Returns bytes) chunks) buffer in
    seen r = complete_lines (buffer ++ List.concat (map decode_ignore chunks)) /\
    final r = InRecv (pending (buffer ++ List.concat (map decode_ignore chunks))).
Proof.
  induction chunks as [| c chunks IH]; intros buffer Hbuf Hdec Hq;
    cbn [map List.concat read_loop].
  - rewrite app_nil_r.
    rewrite (complete_lines_partial buffer Hbuf), (pending_partial buffer Hbuf).
    split; reflexivity.
  - inversion Hdec as [| c' cs Hc Hcs]; subst.
    cbn [map List.concat] in Hq. rewrite app_assoc in Hq |- *.
    destruct (split_in_two (List.length (buffer ++ decode_ignore c))
                (buffer ++ decode_ignore c)
                (List.concat (map decode_ignore chunks)) (le_n _)) as [Hcl Hpe].
    rewrite Hcl in Hq. apply Forall_app in Hq. destruct Hq as [Hq1 Hq2].
    cbn [receive]. rewrite Hc. cbn [negb].
    destruct (drain_frames (List.length (buffer ++ decode_ignore c))
                (buffer ++ decode_ignore c) (le_n _) Hq1) as (D1 & D2 & D3).
    unfold extract. cbn [leaves did bound holds]. rewrite D2, D3.
    destruct (IH (pending (buffer ++ decode_ignore c))
                (pending_no_nl _ _ (le_n _)) Hcs Hq2) as [IH1 IH2].
    cbn [emit seen final]. rewrite D1, IH1, IH2, Hcl, Hpe.
    split; reflexivity.
Qed.

End Framing.

Lemma decode_ascii (bs : bytes) :
  Forall (fun b => (Byte.to_N b < 128)%N) bs ->
  decode_ignore bs = map Byte.to_N bs.
Proof.
  induction 1 as [| b bs Hb _ IH]; [reflexivity |].
  cbn [decode_ignore map]. cbv zeta.
  apply N.ltb_lt in Hb. rewrite Hb, IH. reflexivity.
Qed.

Lemma decode_ascii_chunks (chunks : list bytes) :
  Forall (fun b => (Byte.to_N b < 128)%N) (List.concat chunks) ->
  decode_ignore (List.concat chunks) = List.concat (map decode_ignore chunks) /\
  (Forall (fun c => c <> []) chunks ->
   Forall (fun c => truthy (decode_ignore c) = true) chunks).
Proof.
  induction chunks as [| c chunks IH]; cbn [List.concat map]; intros H.
  - split; [reflexivity | constructor].
  - apply Forall_app in H. destruct H as [Hc Hs].
    destruct (IH Hs) as [IH1 IH2].
    split.
    + rewrite decode_ascii by (apply Forall_app; split; assumption).
      rewrite map_app, <- (decode_ascii c Hc), <- (decode_ascii _ Hs), IH1.
      reflexivity.
    + intros Hne. inversion Hne as [| c' cs Hc' Hcs]; subst.
      constructor; [| exact (IH2 Hcs)].
      rewrite (decode_ascii c Hc). destruct c; [congruence | reflexivity].
Qed.

Section AsciiFraming.

Variable loads : decoder.
Variable addr : address.

(** On ASCII traffic decoding commutes with cutting, and the lines the
    reader extracts are those of the bytes received, however they are cut
    into chunks. *)
Lemma framing_of_ascii_bytes (chunks : list bytes) :
  Forall (fun b => (Byte.to_N b < 128)%N) (List.concat chunks) ->
  Forall (fun c => c <> []) chunks ->
  Forall (quiet loads addr) (complete_lines (decode_ignore (List.concat chunks))) ->
  seen (read_loop loads addr (map (@Returns bytes) chunks) []) =
  complete_lines (decode_ignore (List.concat chunks)).
Proof.
  intros Hascii Hne Hq.
  destruct (decode_ascii_chunks chunks Hascii) as [Hd Ht].
  rewrite Hd in Hq |- *.
  exact (proj1 (framing_of_decoded_text loads addr chunks [] eq_refl (Ht Hne) Hq)).
Qed.
End AsciiFraming.

(** C1 (the code on a character cut by a chunk boundary).  The four bytes
    of the text "a", U+00E9, newline hold one line.  Received whole, the
    reader extracts that line.  Received as two chunks that cut the
    two-byte character, each chunk is decoded on its own, both halves of
    the character are dropped, and the line extracted is "a".  A chunk
    that holds only the first half decodes to the empty text, which the
    reader takes for the end of the connection: it closes it and never
    receives the rest. *)
Theorem split_character_changes_lines
  (addr : address) (on_close : outcome unit) :
  let world recvs :=
    ReaderWorld (Returns tt) (Returns tt) (Returns tt) (Returns tt)
      (Returns tt) recvs on_close in
  complete_lines (decode_ignore [x61; xc3; xa9; x0a]) = [[97; 233]]%N /\
  seen (read json_loads addr (world [Returns [x61; xc3; xa9; x0a]]))
    = [[97; 233]]%N /\
  seen (read json_loads addr (world [Returns [x61; xc3]; Returns [xa9; x0a]]))
    = [[97]]%N /\
  read json_loads addr (world [Returns [xc3]; Returns [xa9; x0a]]) =
    Run [SetTimeout 30; SetSockOpt SO_KEEPALIVE 1; SetSockOpt TCP_KEEPIDLE 60;
         SetSockOpt TCP_KEEPINTVL 10; SetSockOpt TCP_KEEPCNT 3;
         Recv 1024; Close;
         Print [Text "[INFO] Connection closed with "; FAddr addr]]
        [] Returned.
Proof.
  intros world. unfold world.
  destruct on_close; repeat split; vm_compute; reflexivity.
Qed.

(* ================================================================== *)
(** * The theorems on concrete traffic *)
(* ================================================================== *)






Lemma blank_line_skipped_witness :
  let line := [32; 9; 13; 160]%N in
  let rest := quoted "{'type':'ping'}" ++ [NL] in
  contains_nl line = false /\
  forallb isspace line = true /\
  extract json_loads peer (line ++ NL :: rest) =
    then_ [] line (extract json_loads peer rest).
Proof.
  intros line rest.
  assert (H1 : contains_nl line = false) by (vm_compute; reflexivity).
  assert (H2 : forallb isspace line = true) by (vm_compute; reflexivity).
  exact (conj H1 (conj H2
           (proj1 (blank_line_skipped json_loads peer line rest H1 H2)))).
Defined.

Lemma buffer_has_no_newline_witness :
  let w := plain [Returns (sent "{'type':'heartbeat'}" ++ [x0a] ++ sent "{'ty");
                  Raises (Raise socket_timeout (lit "timed out"));
                  Returns (sent "pe':'x'}" ++ [x0a] ++ sent "{'login'")] in
  final (read json_loads peer w) = InRecv (quoted "{'login'") /\
  contains_nl (quoted "{'login'") = false.
Proof.
  intros w.
  assert (H : final (read json_loads peer w) = InRecv (quoted "{'login'"))
    by (vm_compute; reflexivity).
  exact (conj H (buffer_has_no_newline json_loads peer w _ H)).
Defined.

Lemma non_dict_line_ends_reader_witness :
  let line := lit "42" in
  let rest := quoted "{'type':'ping'}" ++ [NL] in
  let chunk := map byte_of (line ++ NL :: rest) in
  let more := [Returns (sent "{'type':'heartbeat'}" ++ [x0a])] in
  let e := Raise AttributeError (lit "'int' object has no attribute 'get'") in
  contains_nl line = false /\
  truthy (strip line) = true /\
  json_loads line = inl (PInt 42) /\
  is_dict (PInt 42) = false /\
  decode_ignore chunk = line ++ NL :: rest /\
  dispatch json_loads peer line = ([], Some e) /\
  read json_loads peer (plain (Returns chunk :: more)) =
  Run [SetTimeout 30; SetSockOpt SO_KEEPALIVE 1; SetSockOpt TCP_KEEPIDLE 60;
       SetSockOpt TCP_KEEPINTVL 10; SetSockOpt TCP_KEEPCNT 3;
       Recv 1024;
       Print [Text "[ERROR] read from "; FAddr peer; Text " -> "; FExn e];
       Close;
       Print [Text "[INFO] Connection closed with "; FAddr peer]]
      [line] Returned.
Proof.
  intros line rest chunk more e.
  assert (H1 : contains_nl line = false) by (vm_compute; reflexivity).
  assert (H2 : truthy (strip line) = true) by (vm_compute; reflexivity).
  assert (H3 : json_loads line = inl (PInt 42)) by (vm_compute; reflexivity).
  assert (H4 : is_dict (PInt 42) = false) by reflexivity.
  assert (H5 : decode_ignore chunk = line ++ NL :: rest)
    by (vm_compute; reflexivity).
  destruct (non_dict_line_ends_reader json_loads peer line rest (PInt 42)
              chunk more (Returns tt) H1 H2 H3 H4 H5) as (A & _ & B).
  exact (conj H1 (conj H2 (conj H3 (conj H4 (conj H5 (conj A B)))))).
Defined.

Lemma writer_sends_account_each_cycle_witness :
  let e := Raise BrokenPipeError (lit "[Errno 32] Broken pipe") in
  caught_by e OSError = true /\
  write peer (WriterWorld (Returns tt)
                [Returns 18%N; Returns 18%N; Raises e] (Returns tt)) =
  Run [SetTimeout 30; Send account_json; Sleep 3; Send account_json; Sleep 3;
       Send account_json; Print (ending_log peer e); Close] [] Returned.
Proof.
  intros e.
  assert (H : caught_by e OSError = true) by reflexivity.
  destruct (writer_sends_account_each_cycle peer [18%N; 18%N] e (Returns tt) H)
    as (_ & _ & _ & _ & A).
  exact (conj H A).
Defined.

Lemma writer_sends_before_sleeping_witness :
  let w := WriterWorld (Returns tt)
             [Returns 18%N;
              Raises (Raise ConnectionResetError (lit "[Errno 104]"))]
             (Returns tt) in
  w_settimeout w = Returns tt /\
  exists rest, trace (write peer w) = SetTimeout 30 :: Send account_json :: rest.
Proof.
  intros w.
  assert (H : w_settimeout w = Returns tt) by reflexivity.
  exact (conj H (proj1 (writer_sends_before_sleeping peer w H))).
Defined.

(* ================================================================== *)
(** * Further properties of the reader, the writer and the listener *)
(* ================================================================== *)

(** ** The reader *)

(** Every modelled class derives from [Exception]. *)
Lemma every_exception_is_caught (e : exn) : caught_by e Exception = true.
Proof. destruct e as [c m]. destruct c; reflexivity. Qed.

Lemma output_app (a b : list event) : output (a ++ b) = output a ++ output b.
Proof. unfold output. apply filter_app. Qed.

Lemma emit_emit (a b : list event) (x y : list str) (r : run) :
  emit a x (emit b y r) = emit (a ++ b) (x ++ y) r.
Proof. unfold emit. cbn. rewrite !app_assoc. reflexivity. Qed.

Section Output.
Variable loads : decoder.
Variable addr : address.

Lemma dispatch_prints (line : str) :
  Forall (fun ev => is_print ev = true) (fst (dispatch loads addr line)).
Proof.
  unfold dispatch.
  destruct (loads line) as [v | [f m]].
  - destruct v; try (cbn; constructor).
    cbn [get]. destruct (eq_str _ _); cbn; repeat constructor.
  - destruct f; cbn; repeat constructor.
Qed.

Lemma drain_prints (fuel : nat) :
  forall buffer, Forall (fun ev => is_print ev = true)
                        (did (drain loads addr fuel buffer)).
Proof.
  induction fuel as [| fuel IH]; intros buffer; rewrite drain_eq.
  - destruct (contains_nl buffer); constructor.
  - destruct (contains_nl buffer); [| constructor].
    destruct (split_nl buffer) as [line rest].
    destruct (truthy (strip line)).
    + pose proof (dispatch_prints line) as Hp.
      destruct (dispatch loads addr line) as [out [e |]]; cbn in *; [exact Hp |].
      apply Forall_app. split; [exact Hp | apply IH].
    + cbn. apply IH.
Qed.

Lemma prints_output (t : list event) :
  Forall (fun ev => is_print ev = true) t -> output t = t.
Proof.
  induction 1 as [| ev t Hev _ IH]; [reflexivity |].
  unfold output in *. cbn. destruct ev; try discriminate Hev. rewrite IH. reflexivity.
Qed.

Lemma extract_output (buffer : str) :
  output (did (extract loads addr buffer)) = did (extract loads addr buffer).
Proof. apply prints_output. apply drain_prints. Qed.

Lemma step_eta (s : step) : s = Step (did s) (bound s) (leaves s) (holds s).
Proof. destruct s. reflexivity. Qed.

Lemma extract_partial (buffer : str) :
  contains_nl buffer = false ->
  extract loads addr buffer = Step [] [] Normal buffer.
Proof. intros H. unfold extract. rewrite drain_eq, H. reflexivity. Qed.

(** Running on a text in two parts. *)
Lemma extract_app (n : nat) :
  forall x y : str,
    List.length x <= n ->
    let s1 := extract loads addr x in
    let s := extract loads addr (x ++ y) in
    match leaves s1 with
    | Normal =>
        let s2 := extract loads addr (holds s1 ++ y) in
        s = Step (did s1 ++ did s2) (bound s1 ++ bound s2) (leaves s2) (holds s2)
    | Throw e =>
        s = Step (did s1) (bound s1) (Throw e) (holds s1 ++ y)
    | _ => True
    end.
Proof.
  induction n as [| n IH]; intros x y Hn.
  - destruct x; [| cbn in Hn; lia].
    cbv zeta. rewrite (extract_partial [] eq_refl).
    cbn [leaves did bound holds app]. apply step_eta.
  - destruct (contains_nl x) eqn:Hnl.
    + destruct (split_nl_found x Hnl) as (line & rest & Hx & Hl & _). subst x.
      rewrite length_app in Hn. cbn in Hn.
      specialize (IH rest y ltac:(lia)).
      cbv zeta in *.
      rewrite <- app_assoc. cbn [app].
      rewrite !(extract_line loads addr line _ Hl).
      destruct (truthy (strip line)).
      * destruct (dispatch loads addr line) as [out [e |]]; [reflexivity |].
        cbn [then_ leaves did bound holds].
        destruct (leaves (extract loads addr rest)); try exact I.
        -- rewrite IH. unfold then_. cbn [did bound leaves holds].
           rewrite app_assoc. reflexivity.
        -- rewrite IH. reflexivity.
      * cbn [then_ leaves did bound holds].
        destruct (leaves (extract loads addr rest)); try exact I.
        -- rewrite IH. reflexivity.
        -- rewrite IH. reflexivity.
    + cbv zeta. rewrite (extract_partial x Hnl).
      cbn [leaves did bound holds app]. apply step_eta.
Qed.
End Output.

Lemma alike_refl (keep : event -> bool) (r : run) : alike keep r r.
Proof. repeat split. Qed.

Lemma alike_emit (keep : event -> bool) (a a' : list event) (x : list str) (r r' : run) :
  filter keep a = filter keep a' ->
  alike keep r r' -> alike keep (emit a x r) (emit a' x r').
Proof.
  intros Ha (Ht & Hs & Hf). unfold alike, emit. cbn.
  rewrite !filter_app, Ha, Ht, Hs, Hf. repeat split.
Qed.

Lemma alike_closing (keep : event -> bool) (c : outcome unit) (after : list event)
      (r r' : run) :
  alike keep r r' -> alike keep (closing c after r) (closing c after r').
Proof.
  intros (Ht & Hs & Hf). unfold alike, closing. rewrite <- Hf.
  destruct (final r) eqn:E; try (repeat split; congruence);
    destruct c; cbn; rewrite !filter_app, Ht, Hs; repeat split; congruence.
Qed.

Section Timeouts.
Variable loads : decoder.
Variable addr : address.

(** The [except Exception] of [read], as it acts on a run. *)
Lemma alike_handled (keep : event -> bool) (r r' : run) :
  alike keep r r' ->
  alike keep
    (match final r with
     | Escaped e =>
         if caught_by e Exception
         then Run (trace r ++ [Print (read_error_log addr e)]) (seen r) Returned
         else r
     | _ => r
     end)
    (match final r' with
     | Escaped e =>
         if caught_by e Exception
         then Run (trace r' ++ [Print (read_error_log addr e)]) (seen r') Returned
         else r'
     | _ => r'
     end).
Proof.
  intros (Ht & Hs & Hf). rewrite <- Hf.
  destruct (final r) eqn:E; try (repeat split; congruence).
  rewrite every_exception_is_caught. unfold alike. cbn.
  rewrite !filter_app, Ht, Hs. repeat split.
Qed.

Lemma emit_nil (r : run) : emit [] [] r = r.
Proof. destruct r. reflexivity. Qed.

(** Receiving is compositional: what the reader does on a longer script
    is what it does on the first part, then, if it is still waiting, what
    it does on the rest from the buffer it holds. *)
Lemma read_loop_app (prior : list (outcome bytes)) :
  forall (more : list (outcome bytes)) (buffer : str),
    read_loop loads addr (prior ++ more) buffer =
    match final (read_loop loads addr prior buffer) with
    | InRecv b =>
        emit (trace (read_loop loads addr prior buffer))
             (seen (read_loop loads addr prior buffer))
             (read_loop loads addr more b)
    | _ => read_loop loads addr prior buffer
    end.
Proof.
  induction prior as [| o prior IH]; intros more buffer.
  - cbn. rewrite emit_nil. reflexivity.
  - cbn [app read_loop].
    destruct (leaves (receive loads addr o buffer)) as [| | e |];
      try reflexivity.
    + rewrite IH, final_emit.
      destruct (final (read_loop loads addr prior (holds (receive loads addr o buffer))));
        try reflexivity.
      rewrite emit_emit. reflexivity.
    + destruct (caught_by e socket_timeout).
      * rewrite IH, final_emit.
        destruct (final (read_loop loads addr prior (holds (receive loads addr o buffer))));
          try reflexivity.
        rewrite emit_emit. reflexivity.
      * destruct (caught_by e ConnectionResetError); [reflexivity |].
        destruct (caught_by e BrokenPipeError); reflexivity.
Qed.

Lemma read_loop_without_timeouts (recvs : list (outcome bytes)) :
  forall buffer : str,
    alike (fun ev => match ev with Recv _ => false | _ => true end)
      (read_loop loads addr recvs buffer)
      (read_loop loads addr (without_timeouts recvs) buffer).
Proof.
  induction recvs as [| o recvs IH]; intros buffer; [apply alike_refl |].
  unfold without_timeouts. cbn [filter]. fold (without_timeouts recvs).
  destruct (timed_out o) eqn:Ho; cbn [negb].
  - destruct o as [chunk | e]; [discriminate |]. cbn [timed_out] in Ho.
    cbn [read_loop receive leaves did bound holds]. rewrite Ho.
    specialize (IH buffer). destruct IH as (Ht & Hs & Hf).
    unfold alike, emit. cbn. repeat split; assumption.
  - cbn [read_loop].
    destruct (leaves (receive loads addr o buffer)) as [| | e |];
      try apply alike_refl.
    + apply alike_emit; [reflexivity | apply IH].
    + destruct (caught_by e socket_timeout); [| apply alike_refl].
      apply alike_emit; [reflexivity | apply IH].
Qed.

(** X1 (timeouts of [recv] leave no mark).  Take away from the results of
    [recv] those that raise [socket.timeout]: the reader prints the same
    lines in the same order, makes the same other calls, binds [line] to
    the same lines and ends in the same way.  Only the number of calls of
    [recv] differs. *)
Theorem timeouts_are_transparent (w : reader_world) :
  let w' := ReaderWorld (r_settimeout w) (r_keepalive w) (r_keepidle w)
              (r_keepintvl w) (r_keepcnt w) (without_timeouts (r_recv w))
              (r_close w) in
  output (trace (read loads addr w)) = output (trace (read loads addr w')) /\
  seen (read loads addr w) = seen (read loads addr w') /\
  final (read loads addr w) = final (read loads addr w').
Proof.
  intros w'. unfold read.
  change (keepalive_parameters w') with (keepalive_parameters w).
  cbn [r_settimeout r_keepalive r_recv r_close w'].
  apply (alike_closing (fun ev => match ev with Recv _ => false | _ => true end)).
  apply alike_handled.
  destruct (r_settimeout w); [| apply alike_refl].
  destruct (r_keepalive w); [| apply alike_refl].
  destruct (keepalive_parameters w) as [evs [e |]]; [apply alike_refl |].
  apply alike_emit; [reflexivity | apply read_loop_without_timeouts].
Qed.
End Timeouts.

Section Chunks.
Variable loads : decoder.
Variable addr : address.

Lemma extract_leaves_cases (buffer : str) :
  match leaves (extract loads addr buffer) with
  | Normal => contains_nl (holds (extract loads addr buffer)) = false
  | Throw e => caught_by e OSError = false
  | _ => False
  end.
Proof.
  pose proof (drain_ends loads addr (List.length buffer) buffer) as H.
  pose proof (extract_ends loads addr buffer) as Hs.
  unfold extract in *.
  destruct (leaves (drain loads addr (List.length buffer) buffer));
    try exact H. congruence.
Qed.

(** Receiving a text in chunks is running the loop once on the text. *)
Lemma chunks_from (chunks : list bytes) :
  forall buffer : str,
    contains_nl buffer = false ->
    Forall (fun c => truthy (decode_ignore c) = true) chunks ->
    let whole := extract loads addr (buffer ++ List.concat (map decode_ignore chunks)) in
    let r := read_loop loads addr (map (@Returns bytes) chunks) buffer in
    seen r = bound whole /\
    output (trace r) = did whole /\
    match leaves whole with
    | Throw e => final r = Escaped e
    | _ => final r = InRecv (holds whole)
    end.
Proof.
  induction chunks as [| c chunks IH]; intros buffer Hbuf Hdec;
    cbn [map List.concat read_loop].
  - rewrite app_nil_r. cbv zeta. rewrite (extract_partial loads addr buffer Hbuf).
    repeat split.
  - inversion Hdec as [| c' cs Hc Hcs]; subst. cbv zeta.
    rewrite app_assoc.
    pose proof (extract_app loads addr _ (buffer ++ decode_ignore c)
                  (List.concat (map decode_ignore chunks)) (le_n _)) as Happ.
    cbv zeta in Happ.
    cbn [receive]. rewrite Hc. cbn [negb leaves did bound holds].
    pose proof (extract_leaves_cases (buffer ++ decode_ignore c)) as Hcase.
    pose proof (extract_output loads addr (buffer ++ decode_ignore c)) as Hout.
    destruct (leaves (extract loads addr (buffer ++ decode_ignore c)))
      as [| | e |]; try contradiction.
    + destruct (IH _ Hcase Hcs) as (I1 & I2 & I3). cbv zeta in I1, I2, I3.
      rewrite Happ. cbn [leaves did bound holds emit trace seen final].
      rewrite output_app.
      change (output (Recv 1024 :: ?x)) with (output x).
      rewrite Hout, I1, I2. repeat split. exact I3.
    + destruct (not_oserror e Hcase) as (H1 & H2 & H3).
      rewrite H1, H2, H3, Happ. cbn [leaves did bound holds trace seen final].
      change (output (Recv 1024 :: ?x)) with (output x).
      rewrite Hout. repeat split.
Qed.

(** X2 (receiving in chunks is reading the text once).  When every chunk
    decodes to some text, the receive loop run on the chunks one by one
    shows what one pass of the inner loop over the concatenated text
    shows: [line] is bound to the same lines, the same lines are printed
    in the same order, and the loop ends with the exception of the first
    line that raises, if there is one, and otherwise waits in [recv] with
    the text after the last newline as its buffer. *)
Theorem chunks_as_one_text (chunks : list bytes) :
  Forall (fun c => truthy (decode_ignore c) = true) chunks ->
  let whole := extract loads addr (List.concat (map decode_ignore chunks)) in
  let r := read_loop loads addr (map (@Returns bytes) chunks) [] in
  seen r = bound whole /\
  output (trace r) = did whole /\
  match leaves whole with
  | Throw e => final r = Escaped e
  | _ => final r = InRecv (holds whole)
  end.
Proof. intros H. exact (chunks_from chunks [] eq_refl H). Qed.

(** X3 (the same on the bytes of ASCII traffic).  When every byte
    received is below 128 and no chunk is empty, the receive loop shows
    what one pass of the inner loop over the decoded concatenation of the
    bytes shows, however the bytes are cut into chunks. *)
Theorem ascii_chunks_as_one_text (chunks : list bytes) :
  Forall (fun b => (Byte.to_N b < 128)%N) (List.concat chunks) ->
  Forall (fun c => c <> []) chunks ->
  let whole := extract loads addr (decode_ignore (List.concat chunks)) in
  let r := read_loop loads addr (map (@Returns bytes) chunks) [] in
  seen r = bound whole /\
  output (trace r) = did whole /\
  match leaves whole with
  | Throw e => final r = Escaped e
  | _ => final r = InRecv (holds whole)
  end.
Proof.
  intros Hascii Hne.
  destruct (decode_ascii_chunks chunks Hascii) as [Hd Ht].
  rewrite Hd. exact (chunks_from chunks [] eq_refl (Ht Hne)).
Qed.


Lemma read_loop_no_close (recvs : list (outcome bytes)) :
  forall buffer, existsb is_close (trace (read_loop loads addr recvs buffer)) = false.
Proof.
  assert (Hd : forall b, existsb is_close (did (extract loads addr b)) = false).
  { intros b. pose proof (drain_prints loads addr (List.length b) b) as Hp.
    unfold extract. induction Hp as [| ev t Hev _ IHp]; [reflexivity |].
    cbn. destruct ev; try discriminate Hev. exact IHp. }
  induction recvs as [| o recvs IH]; intros buffer; [reflexivity |].
  cbn [read_loop].
  assert (Hs : existsb is_close (did (receive loads addr o buffer)) = false).
  { destruct o as [chunk | e]; cbn [receive]; [| reflexivity].
    destruct (negb _); [reflexivity |]. cbn [did existsb is_close orb]. apply Hd. }
  destruct (leaves (receive loads addr o buffer)) as [| | e |];
    cbn [emit trace]; rewrite ?existsb_app, ?Hs, ?IH; try reflexivity.
  destruct (caught_by e socket_timeout);
    [cbn [emit trace]; rewrite existsb_app, Hs, IH; reflexivity |].
  destruct (caught_by e ConnectionResetError);
    [cbn [trace]; rewrite existsb_app, Hs; reflexivity |].
  destruct (caught_by e BrokenPipeError);
    cbn [trace]; rewrite ?existsb_app, ?Hs; reflexivity.
Qed.

Lemma read_loop_final (recvs : list (outcome bytes)) (buffer : str) :
  match final (read_loop loads addr recvs buffer) with
  | InSend | Stuck => False
  | _ => True
  end.
Proof.
  revert buffer. induction recvs as [| o recvs IH]; intros buffer; [exact I |].
  cbn [read_loop].
  pose proof (extract_ends loads addr) as Hends.
  assert (Hst : leaves (receive loads addr o buffer) <> Starved).
  { destruct o as [chunk | e]; cbn [receive]; [| discriminate].
    destruct (negb _); [discriminate | apply Hends]. }
  destruct (leaves (receive loads addr o buffer)) as [| | e |];
    try exact I; try apply IH; try congruence.
  destruct (caught_by e socket_timeout); [apply IH |].
  destruct (caught_by e ConnectionResetError); [exact I |].
  destruct (caught_by e BrokenPipeError); exact I.
Qed.

Lemma keepalive_parameters_calls (w : reader_world) :
  existsb is_close (fst (keepalive_parameters w)) = false /\
  existsb is_recv (fst (keepalive_parameters w)) = false /\
  existsb is_print (fst (keepalive_parameters w)) = false /\
  traffic (fst (keepalive_parameters w)) = [].
Proof.
  unfold keepalive_parameters.
  destruct (r_keepidle w) as [u | e];
    [destruct (r_keepintvl w) as [u' | e];
     [destruct (r_keepcnt w) as [u'' | e] |] |];
    try destruct (caught_by_any e _); repeat split; reflexivity.
Qed.

(** X4 (the reader closes once, and says so last).  No exception of the
    modelled classes leaves [read].  When it returns, its last two actions
    are the call of [close] and the print of the "Connection closed" line,
    and it has not called [close] before; while it waits in [recv] it has
    not called [close] at all. *)
Theorem reader_closes_once (w : reader_world) :
  match final (read loads addr w) with
  | Returned =>
      exists pre,
        trace (read loads addr w) = pre ++ [Close; Print (closed_log addr)] /\
        existsb is_close pre = false
  | InRecv _ => existsb is_close (trace (read loads addr w)) = false
  | _ => False
  end.
Proof.
  unfold read.
  assert (Hgo : forall body : run,
            existsb is_close (trace body) = false ->
            match final body with InSend | Stuck => False | _ => True end ->
            let handled :=
              match final body with
              | Escaped e =>
                  if caught_by e Exception
                  then Run (trace body ++ [Print (read_error_log addr e)])
                           (seen body) Returned
                  else body
              | _ => body
              end in
            match final (closing (r_close w) [Print (closed_log addr)] handled) with
            | Returned =>
                exists pre,
                  trace (closing (r_close w) [Print (closed_log addr)] handled) =
                  pre ++ [Close; Print (closed_log addr)] /\
                  existsb is_close pre = false
            | InRecv _ =>
                existsb is_close
                  (trace (closing (r_close w) [Print (closed_log addr)] handled)) = false
            | _ => False
            end).
  { intros [t ls f] Ht Hf. cbn [final trace seen] in *.
    destruct f as [| e | b | |]; try contradiction; cbv zeta.
    - unfold closing. cbn [final trace seen].
      destruct (r_close w); cbn [final trace]; exists t; split; auto.
    - rewrite every_exception_is_caught. unfold closing. cbn [final trace seen].
      destruct (r_close w); cbn [final trace]; eexists; (split; [reflexivity |]);
        rewrite existsb_app, Ht; reflexivity.
    - unfold closing. cbn [final trace seen]. exact Ht. }
  destruct (keepalive_parameters_calls w) as (Hk & _).
  destruct (r_settimeout w) as [u | e]; [| apply Hgo; [reflexivity | exact I]].
  destruct (r_keepalive w) as [u' | e]; [| apply Hgo; [reflexivity | exact I]].
  destruct (keepalive_parameters w) as [evs [e |]]; cbn [fst] in Hk.
  - apply Hgo; [cbn; exact Hk | exact I].
  - apply Hgo.
    + cbn [emit trace]. rewrite existsb_app.
      cbn [existsb is_close orb]. rewrite Hk.
      apply read_loop_no_close.
    + rewrite final_emit. apply read_loop_final.
Qed.
End Chunks.

Section Endings.
Variable loads : decoder.
Variable addr : address.

Lemma tolerated_parameters (w : reader_world) :
  tolerated (r_keepidle w) = true ->
  tolerated (r_keepintvl w) = true ->
  tolerated (r_keepcnt w) = true ->
  snd (keepalive_parameters w) = None.
Proof.
  unfold keepalive_parameters, tolerated.
  destruct (r_keepidle w) as [u | e]; [| intros -> _ _; reflexivity].
  destruct (r_keepintvl w) as [u' | e]; [| intros _ -> _; reflexivity].
  destruct (r_keepcnt w) as [u'' | e]; [reflexivity | intros _ _ ->; reflexivity].
Qed.

(** X5 (the keepalive parameters are optional).  When each of the three
    [setsockopt] calls for the keepalive parameters returns or raises
    [AttributeError] or [OSError], the reader goes on as on a socket where
    the three calls return: apart from the calls of [setsockopt] made, the
    trace, the lines bound and the ending are the same. *)
Theorem keepalive_parameters_are_optional (w : reader_world) :
  tolerated (r_keepidle w) = true ->
  tolerated (r_keepintvl w) = true ->
  tolerated (r_keepcnt w) = true ->
  let w0 := ReaderWorld (r_settimeout w) (r_keepalive w)
              (Returns tt) (Returns tt) (Returns tt) (r_recv w) (r_close w) in
  traffic (trace (read loads addr w)) = traffic (trace (read loads addr w0)) /\
  seen (read loads addr w) = seen (read loads addr w0) /\
  final (read loads addr w) = final (read loads addr w0).
Proof.
  intros H1 H2 H3 w0.
  pose proof (tolerated_parameters w H1 H2 H3) as Hnone.
  destruct (keepalive_parameters_calls w) as (_ & _ & _ & Htr).
  unfold read. cbn [r_settimeout r_keepalive r_recv r_close w0].
  apply (alike_closing (fun ev => match ev with SetSockOpt _ _ => false | _ => true end)).
  apply alike_handled.
  destruct (r_settimeout w); [| apply alike_refl].
  destruct (r_keepalive w); [| apply alike_refl].
  destruct (keepalive_parameters w) as [evs r]. cbn [fst snd] in *. subst r.
  cbn [keepalive_parameters r_keepidle r_keepintvl r_keepcnt w0].
  apply alike_emit; [| apply alike_refl].
  cbn [filter]. f_equal. exact Htr.
Qed.

(** X6 (a failed preparation ends the reader before it receives).  When
    [settimeout], the [SO_KEEPALIVE] call or a keepalive parameter raises
    an exception the inner handler does not take, the reader never calls
    [recv]: it prints the "[ERROR] read from" line with that exception,
    closes the connection, prints the "Connection closed" line and
    returns, having printed nothing before. *)
Theorem failed_setup_ends_reader (w : reader_world) (e : exn) :
  setup_failure w = Some e ->
  exists calls,
    read loads addr w =
      Run (calls ++ [Print (read_error_log addr e); Close; Print (closed_log addr)])
          [] Returned /\
    existsb is_recv calls = false /\
    existsb is_print calls = false.
Proof.
  unfold setup_failure, read. intros H.
  destruct (keepalive_parameters_calls w) as (_ & Hr & Hp & _).
  destruct (r_settimeout w) as [u | e0].
  - destruct (r_keepalive w) as [u' | e0].
    + destruct (keepalive_parameters w) as [evs r]. cbn [fst snd] in *. subst r.
      cbn [final]. rewrite every_exception_is_caught.
      unfold closing. cbn [final trace seen].
      exists (SetTimeout 30 :: SetSockOpt SO_KEEPALIVE 1 :: evs).
      cbn [existsb is_recv is_print orb]. rewrite Hr, Hp.
      destruct (r_close w); repeat split; cbn; rewrite <- app_assoc; reflexivity.
    + injection H as H. subst e0.
      cbn [final]. rewrite every_exception_is_caught.
      unfold closing. cbn [final trace seen].
      exists [SetTimeout 30; SetSockOpt SO_KEEPALIVE 1].
      destruct (r_close w); repeat split; reflexivity.
  - injection H as H. subst e0.
    cbn [final]. rewrite every_exception_is_caught.
    unfold closing. cbn [final trace seen].
    exists [SetTimeout 30].
    destruct (r_close w); repeat split; reflexivity.
Qed.

Lemma read_after (prior more : list (outcome bytes)) (on_close : outcome unit)
      (t : list event) (ls : list str) (buffer : str) :
  read_loop loads addr prior [] = Run t ls (InRecv buffer) ->
  read loads addr
    (ReaderWorld (Returns tt) (Returns tt) (Returns tt) (Returns tt)
       (Returns tt) (prior ++ more) on_close) =
  closing on_close [Print (closed_log addr)]
    (let body := emit (prepared ++ t) ls (read_loop loads addr more buffer) in
     match final body with
     | Escaped e =>
         if caught_by e Exception
         then Run (trace body ++ [Print (read_error_log addr e)]) (seen body) Returned
         else body
     | _ => body
     end).
Proof.
  intros Hprior. unfold read.
  cbn [r_settimeout r_keepalive r_recv r_close].
  cbn [keepalive_parameters r_keepidle r_keepintvl r_keepcnt].
  rewrite read_loop_app, Hprior. cbn [final trace seen].
  rewrite emit_emit. reflexivity.
Qed.

(** X7 (a chunk that decodes to nothing ends the reader).  After any
    traffic that left the reader waiting in [recv], a chunk whose decoded
    text is empty (no bytes: the peer has shut down; or only bytes the
    decoder drops) makes the reader leave the loop, close the connection,
    print the "Connection closed" line and return.  Nothing is printed
    for the text still in the buffer, and later results of [recv] are
    never asked for. *)
Theorem peer_shutdown_ends_reader
  (prior more : list (outcome bytes)) (chunk : bytes) (on_close : outcome unit)
  (t : list event) (ls : list str) (buffer : str) :
  read_loop loads addr prior [] = Run t ls (InRecv buffer) ->
  decode_ignore chunk = [] ->
  read loads addr
    (ReaderWorld (Returns tt) (Returns tt) (Returns tt) (Returns tt)
       (Returns tt) (prior ++ Returns chunk :: more) on_close) =
  Run (prepared ++ t ++ [Recv 1024; Close; Print (closed_log addr)]) ls Returned.
Proof.
  intros Hprior Hchunk.
  rewrite (read_after prior _ on_close t ls buffer Hprior).
  cbn [read_loop receive]. rewrite Hchunk.
  cbn [truthy negb leaves did bound holds].
  unfold closing, emit. cbn [final trace seen].
  destruct on_close; rewrite ?app_nil_r, <- ?app_assoc; reflexivity.
Qed.

(** X8 (a reset or a broken pipe ends the reader with one INFO line).
    After any traffic that left the reader waiting in [recv], a [recv]
    that raises [ConnectionResetError], respectively [BrokenPipeError],
    makes the reader print "[INFO] Connection reset by", respectively
    "[INFO] Broken pipe with", and the address, leave the loop, close the
    connection, print the "Connection closed" line and return; no ERROR
    line is printed. *)
Theorem peer_reset_ends_reader
  (prior more : list (outcome bytes)) (text : str) (on_close : outcome unit)
  (t : list event) (ls : list str) (buffer : str) :
  read_loop loads addr prior [] = Run t ls (InRecv buffer) ->
  let world recvs :=
    ReaderWorld (Returns tt) (Returns tt) (Returns tt) (Returns tt)
      (Returns tt) recvs on_close in
  read loads addr
    (world (prior ++ Raises (Raise ConnectionResetError text) :: more)) =
  Run (prepared ++ t ++
       [Recv 1024; Print [Text "[INFO] Connection reset by "; FAddr addr];
        Close; Print (closed_log addr)]) ls Returned /\
  read loads addr
    (world (prior ++ Raises (Raise BrokenPipeError text) :: more)) =
  Run (prepared ++ t ++
       [Recv 1024; Print [Text "[INFO] Broken pipe with "; FAddr addr];
        Close; Print (closed_log addr)]) ls Returned.
Proof.
  intros Hprior world. unfold world.
  rewrite !(read_after prior _ on_close t ls buffer Hprior).
  cbn [read_loop receive leaves did bound holds].
  change (caught_by (Raise ConnectionResetError text) socket_timeout) with false.
  change (caught_by (Raise ConnectionResetError text) ConnectionResetError) with true.
  change (caught_by (Raise BrokenPipeError text) socket_timeout) with false.
  change (caught_by (Raise BrokenPipeError text) ConnectionResetError) with false.
  change (caught_by (Raise BrokenPipeError text) BrokenPipeError) with true.
  unfold closing, emit. cbn [final trace seen].
  destruct on_close; rewrite ?app_nil_r, <- ?app_assoc; split; reflexivity.
Qed.

(** X9 (any other failure of [recv] ends the reader with the ERROR line).
    After any traffic that left the reader waiting in [recv], a [recv]
    that raises an exception which is neither a timeout, nor a reset, nor
    a broken pipe leaves the loop through the outer handler: the reader
    prints the "[ERROR] read from" line with the exception, closes the
    connection, prints the "Connection closed" line and returns. *)
Theorem other_failure_ends_reader
  (prior more : list (outcome bytes)) (e : exn) (on_close : outcome unit)
  (t : list event) (ls : list str) (buffer : str) :
  read_loop loads addr prior [] = Run t ls (InRecv buffer) ->
  caught_by e socket_timeout = false ->
  caught_by e ConnectionResetError = false ->
  caught_by e BrokenPipeError = false ->
  read loads addr
    (ReaderWorld (Returns tt) (Returns tt) (Returns tt) (Returns tt)
       (Returns tt) (prior ++ Raises e :: more) on_close) =
  Run (prepared ++ t ++
       [Recv 1024; Print [Text "[ERROR] read from "; FAddr addr; Text " -> "; FExn e];
        Close; Print (closed_log addr)]) ls Returned.
Proof.
  intros Hprior H1 H2 H3.
  rewrite (read_after prior _ on_close t ls buffer Hprior).
  cbn [read_loop receive leaves did bound holds]. rewrite H1, H2, H3.
  unfold emit. cbn [trace seen final]. rewrite every_exception_is_caught.
  unfold closing. cbn [final trace seen].
  destruct on_close; rewrite ?app_nil_r, <- ?app_assoc; reflexivity.
Qed.
End Endings.

(** ** The writer *)

Lemma family_of_oserror (e : exn) :
  caught_by e OSError = false ->
  caught_by_any e [ConnectionResetError; BrokenPipeError; OSError] = false /\
  caught_by e socket_timeout = false.
Proof.
  destruct e as [c m].
  destruct c; cbn; intros H; try discriminate; split; reflexivity.
Qed.

Lemma oserror_in_family (e : exn) :
  caught_by e OSError = true ->
  caught_by_any e [ConnectionResetError; BrokenPipeError; OSError] = true.
Proof.
  intros H. unfold caught_by_any. cbn [existsb]. rewrite H, !orb_true_r.
  reflexivity.
Qed.

Section Pacing.
Variable addr : address.

Lemma write_loop_raised (e : exn) (sends : list (outcome N)) :
  write_loop addr (Raises e :: sends) =
  if caught_by e OSError
  then Run [Send account_json; Print (ending_log addr e)] [] Returned
  else Run [Send account_json] [] (Escaped e).
Proof.
  destruct (caught_by e OSError) eqn:H.
  - apply write_loop_failed. exact H.
  - destruct (family_of_oserror e H) as [Hf Ht].
    cbn [write_loop]. rewrite wire_payload. cbn [transmit].
    rewrite Hf, Ht. reflexivity.
Qed.

(** X11 (the first send that raises is the last send).  After any number
    of sends that return, the first [send] that raises ends the writer,
    whatever the exception and whatever the socket would have done next:
    an exception deriving from [OSError] gives the "Write thread ending"
    line, any other one the "[ERROR] write to" line; then the connection
    is closed and [write] returns.  The [continue] of the second handler
    is never taken. *)
Theorem first_failed_send_is_last
  (returns : list N) (e : exn) (more : list (outcome N))
  (on_close : outcome unit) :
  write addr
    (WriterWorld (Returns tt) (map (@Returns N) returns ++ Raises e :: more)
       on_close) =
  Run (SetTimeout 30 :: cycles returns ++
       [Send account_json;
        Print (if caught_by e OSError then ending_log addr e
               else write_error_log addr e);
        Close]) [] Returned.
Proof.
  unfold write. cbn [w_settimeout w_send w_close].
  rewrite write_loop_cycles, write_loop_raised.
  destruct (caught_by e OSError).
  - unfold closing, emit. cbn [final trace seen].
    destruct on_close; cbn [app]; rewrite <- ?app_assoc; reflexivity.
  - unfold emit. cbn [final trace seen]. rewrite every_exception_is_caught.
    unfold closing. cbn [final trace seen].
    destruct on_close; cbn [app]; rewrite <- ?app_assoc; reflexivity.
Qed.

Lemma paced_app (t u : list event) :
  Forall (fun ev => match ev with Send _ | Sleep _ => False | _ => True end) u ->
  paced (t ++ u) = paced t.
Proof.
  intros Hu.
  assert (Hz : existsb is_send u = false).
  { clear - Hu. induction Hu as [| ev u Hev _ IH]; [reflexivity |].
    cbn [existsb]. rewrite IH. destruct ev; try reflexivity; contradiction. }
  assert (Hs : forall t, existsb is_send (t ++ u) = existsb is_send t).
  { intros t0. rewrite existsb_app, Hz. apply orb_false_r. }
  assert (Hp : paced u = true).
  { clear - Hu. induction Hu as [| ev u Hev _ IH]; [reflexivity |].
    destruct ev; try exact IH; contradiction. }
  induction t as [| ev t IH]; [exact Hp |].
  destruct ev; cbn [app paced]; try exact IH.
  rewrite IH. f_equal.
  destruct t as [| ev' t']; cbn [app].
  - cbn [existsb negb]. destruct u as [| ev u']; [reflexivity |].
    inversion Hu as [| ev0 u0 Hev Hu']; subst.
    destruct ev; try contradiction; rewrite Hz; reflexivity.
  - destruct ev'; try reflexivity;
      cbn [existsb]; rewrite (Hs t'); reflexivity.
Qed.

Lemma write_loop_paced (sends : list (outcome N)) :
  paced (trace (write_loop addr sends)) = true.
Proof.
  induction sends as [| o sends IH]; [rewrite write_loop_blocked; reflexivity |].
  destruct o as [k | e].
  - rewrite write_loop_sent. cbn [emit trace app paced].
    rewrite IH. reflexivity.
  - rewrite write_loop_raised. destruct (caught_by e OSError); reflexivity.
Qed.

(** X12 (the writer pauses after every send).  On every socket, each
    [send] of the writer is followed at once by [sleep(3)], except the
    one that raised, which is its last: the writer never sends twice in a
    row. *)
Theorem writer_pauses_between_sends (w : writer_world) :
  paced (trace (write addr w)) = true.
Proof.
  assert (Hc : forall c r, paced (trace r) = true ->
                           paced (trace (closing c [] r)) = true).
  { intros c r Hr. unfold closing.
    destruct (final r); try exact Hr;
      destruct c; cbn [trace]; rewrite paced_app; try exact Hr;
        repeat constructor. }
  unfold write. apply Hc.
  destruct (w_settimeout w) as [u | e].
  - pose proof (write_loop_paced (w_send w)) as Hl.
    destruct (write_loop addr (w_send w)) as [t ls f].
    cbn [final trace seen emit app] in *.
    destruct f as [| e | b | |]; cbn [trace paced]; try exact Hl.
    destruct (caught_by e Exception); cbn [trace]; [| exact Hl].
    change (paced ((SetTimeout 30 :: t) ++ [Print (write_error_log addr e)]) = true).
    rewrite paced_app; [exact Hl | repeat constructor].
  - cbn [final]. destruct (caught_by e Exception); reflexivity.
Qed.

Lemma write_loop_shape (sends : list (outcome N)) :
  match final (write_loop addr sends) with
  | Returned =>
      exists pre msg,
        trace (write_loop addr sends) = pre ++ [Print msg] /\
        existsb is_close pre = false /\ existsb is_print pre = false
  | InSend | Escaped _ =>
      existsb is_close (trace (write_loop addr sends)) = false /\
      existsb is_print (trace (write_loop addr sends)) = false
  | _ => False
  end.
Proof.
  induction sends as [| o sends IH]; [rewrite write_loop_blocked; split; reflexivity |].
  destruct o as [k | e].
  - rewrite write_loop_sent. unfold emit. cbn [final trace seen].
    destruct (final (write_loop addr sends)); try exact IH.
    destruct IH as (pre & msg & Ht & Hc & Hp).
    exists (Send account_json :: Sleep 3 :: pre), msg.
    rewrite Ht. repeat split; assumption.
  - rewrite write_loop_raised. destruct (caught_by e OSError); cbn [final trace].
    + exists [Send account_json], (ending_log addr e). repeat split.
    + split; reflexivity.
Qed.

(** X13 (the writer reports once and closes once).  No exception of the
    modelled classes leaves [write].  When it returns, its last two
    actions are the print of one line and the call of [close], and it has
    neither printed nor closed before; while it waits in [send] it has
    neither printed nor closed. *)
Theorem writer_reports_and_closes_once (w : writer_world) :
  match final (write addr w) with
  | Returned =>
      exists pre msg,
        trace (write addr w) = pre ++ [Print msg; Close] /\
        existsb is_close pre = false /\ existsb is_print pre = false
  | InSend =>
      existsb is_close (trace (write addr w)) = false /\
      existsb is_print (trace (write addr w)) = false
  | _ => False
  end.
Proof.
  unfold write.
  destruct (w_settimeout w) as [u | e].
  - pose proof (write_loop_shape (w_send w)) as Hl.
    destruct (write_loop addr (w_send w)) as [t ls f].
    unfold emit. cbn [final trace seen] in *.
    destruct f as [| e | b | |]; try contradiction.
    + destruct Hl as (pre & msg & Ht & Hc & Hp). subst t.
      unfold closing. cbn [final trace seen].
      destruct (w_close w); cbn [final trace]; exists (SetTimeout 30 :: pre), msg;
        cbn [app]; rewrite <- ?app_assoc;
        (split; [reflexivity | split; assumption]).
    + destruct Hl as [Hc Hp]. rewrite every_exception_is_caught.
      unfold closing. cbn [final trace seen].
      destruct (w_close w); cbn [final trace];
        exists (SetTimeout 30 :: t), (write_error_log addr e);
        cbn [app]; rewrite <- ?app_assoc;
        (split; [reflexivity | split; assumption]).
    + unfold closing. cbn [final trace]. exact Hl.
  - cbn [final]. rewrite every_exception_is_caught.
    unfold closing. cbn [final trace seen].
    destruct (w_close w); cbn [final trace];
      exists [SetTimeout 30], (write_error_log addr e);
      (split; [reflexivity | split; reflexivity]).
Qed.
End Pacing.

(** ** The listener *)

Lemma tally_app {A : Type} (p : A -> bool) (l l' : list A) :
  tally p (l ++ l') = tally p l + tally p l'.
Proof. unfold tally. rewrite filter_app, length_app. reflexivity. Qed.

Lemma perform_quiet (steps : list (Listener.call * outcome unit)) :
  Forall (fun s => is_accept (fst s) = false /\ is_say (fst s) = false) steps ->
  existsb is_accept (fst (Listener.perform steps)) = false /\
  existsb is_say (fst (Listener.perform steps)) = false.
Proof.
  induction 1 as [| [c o] steps [Ha Hs] _ IH]; [split; reflexivity |].
  cbn [fst] in Ha, Hs. cbn [Listener.perform].
  destruct o as [u | e].
  - destruct (Listener.perform steps) as [t r]. cbn [fst existsb] in *.
    rewrite Ha, Hs. exact IH.
  - cbn [fst existsb]. rewrite Ha, Hs. split; reflexivity.
Qed.

Lemma is_say_complaint (c : Listener.call) :
  is_say c = false -> is_complaint c = false.
Proof. destruct c; try reflexivity; discriminate. Qed.

Lemma tally_none {A : Type} (p : A -> bool) (l : list A) :
  existsb p l = false -> tally p l = 0.
Proof.
  unfold tally. induction l as [| a l IH]; [reflexivity |].
  cbn [existsb filter]. destruct (p a); [discriminate |]. exact IH.
Qed.

Lemma no_say_no_complaint (l : list Listener.call) :
  existsb is_say l = false -> existsb is_complaint l = false.
Proof.
  induction l as [| c l IH]; [reflexivity |].
  cbn [existsb]. intros H. apply orb_false_iff in H. destruct H as [Hc Hl].
  rewrite (is_say_complaint c Hc), (IH Hl). reflexivity.
Qed.

Lemma welcome_tally (a : Listener.arrival) :
  tally is_accept (fst (Listener.welcome a)) = 1 /\
  tally is_complaint (fst (Listener.welcome a)) = 0.
Proof.
  unfold Listener.welcome.
  destruct (Listener.on_accept a) as [[conn addr] | e]; [| split; reflexivity].
  match goal with
  | |- context [Listener.perform ?steps] =>
      pose proof (perform_quiet steps) as H;
      destruct (Listener.perform steps) as [t r]
  end.
  cbn [fst] in *.
  destruct H as [Ha Hs]; [repeat constructor |].
  change (Listener.Accept :: Listener.Say (Listener.established_log addr) :: t)
    with ([Listener.Accept; Listener.Say (Listener.established_log addr)] ++ t).
  rewrite !tally_app, (tally_none _ _ Ha),
    (tally_none _ _ (no_say_no_complaint _ Hs)).
  split; reflexivity.
Qed.

Lemma accept_loop_listens (arrivals : list Listener.arrival) :
  snd (Listener.accept_loop arrivals) = Listener.Listening /\
  tally is_accept (fst (Listener.accept_loop arrivals)) = List.length arrivals /\
  tally is_complaint (fst (Listener.accept_loop arrivals)) =
    tally troubled arrivals.
Proof.
  induction arrivals as [| a arrivals IH]; [repeat split |].
  cbn [Listener.accept_loop].
  destruct (welcome_tally a) as [Ha Hc].
  unfold tally at 3. cbn [filter]. unfold troubled at 1.
  destruct (Listener.welcome a) as [t [e |]]; cbn [fst snd] in *.
  - rewrite every_exception_is_caught.
    destruct (Listener.accept_loop arrivals) as [t' s]. cbn [fst snd] in *.
    destruct IH as (Hs & Ha' & Hc').
    change (t ++ Listener.Say (Listener.accept_error_log e) :: t')
      with (t ++ [Listener.Say (Listener.accept_error_log e)] ++ t').
    rewrite !tally_app, Ha, Hc, Ha', Hc'.
    repeat split; try assumption; reflexivity.
  - destruct (Listener.accept_loop arrivals) as [t' s]. cbn [fst snd] in *.
    destruct IH as (Hs & Ha' & Hc').
    rewrite !tally_app, Ha, Hc, Ha', Hc'.
    repeat split; try assumption; reflexivity.
Qed.

(** X14 (the listener outlives every arrival).  Once the listening socket
    is set up, no exception of the modelled classes raised in a round of
    the accept loop ends the listener: it calls [accept] once for every
    arrival and prints the "[ERROR] Error accepting connection" line once
    for every round in which a call raised.  When the setup itself
    raises, the exception leaves [start_server] before any [accept] and
    before any print. *)
Theorem listener_outlives_every_arrival (w : Listener.listener_world) :
  match snd (Listener.start_server w) with
  | Listener.Listening =>
      tally is_accept (fst (Listener.start_server w)) =
        List.length (Listener.l_arrivals w) /\
      tally is_complaint (fst (Listener.start_server w)) =
        tally troubled (Listener.l_arrivals w)
  | Listener.Crashed _ =>
      existsb is_accept (fst (Listener.start_server w)) = false /\
      existsb is_say (fst (Listener.start_server w)) = false
  end.
Proof.
  unfold Listener.start_server.
  match goal with
  | |- context [Listener.perform ?steps] =>
      pose proof (perform_quiet steps) as H;
      destruct (Listener.perform steps) as [t r]
  end.
  cbn [fst] in H. destruct H as [Ha Hs]; [repeat constructor |].
  destruct r as [e |]; cbn [fst snd]; [split; assumption |].
  destruct (Listener.l_getsockname w) as [name | e]; cbn [fst snd].
  - destruct (accept_loop_listens (Listener.l_arrivals w)) as (Hl & Hn & Hc).
    destruct (Listener.accept_loop (Listener.l_arrivals w)) as [t' s].
    cbn [fst snd] in *. subst s.
    change (t ++ Listener.GetSockName :: Listener.Say (Listener.listening_log name)
              :: Listener.Say Listener.keepalive_log :: t')
      with (t ++ [Listener.GetSockName; Listener.Say (Listener.listening_log name);
                  Listener.Say Listener.keepalive_log] ++ t').
    rewrite !tally_app, (tally_none _ _ Ha),
      (tally_none _ _ (no_say_no_complaint _ Hs)), Hn, Hc.
    split; reflexivity.
  - rewrite !existsb_app, Ha, Hs. split; reflexivity.
Qed.

Lemma address_eqb_refl (a : address) : address_eqb a a = true.
Proof.
  unfold address_eqb. rewrite str_eqb_refl, Z.eqb_refl. reflexivity.
Qed.

Lemma welcome_starts (a : Listener.arrival) :
  filter is_start (fst (Listener.welcome a)) = [] \/
  exists conn addr,
    filter is_start (fst (Listener.welcome a)) =
      [Listener.Start Listener.ReadWorker conn addr true] \/
    filter is_start (fst (Listener.welcome a)) =
      [Listener.Start Listener.ReadWorker conn addr true;
       Listener.Start Listener.WriteWorker conn addr true].
Proof.
  unfold Listener.welcome.
  destruct (Listener.on_accept a) as [[conn addr] | e]; [| left; reflexivity].
  cbn [Listener.perform].
  destruct (Listener.on_keepalive a); [| left; reflexivity].
  destruct (Listener.on_sndbuf a); [| left; reflexivity].
  destruct (Listener.on_rcvbuf a); [| left; reflexivity].
  right. exists conn, addr.
  destruct (Listener.on_start_reader a); [| left; reflexivity].
  destruct (Listener.on_start_writer a); right; reflexivity.
Qed.

Lemma paired_round (a : Listener.arrival) (rest : list Listener.call) :
  paired rest = true ->
  paired (filter is_start (fst (Listener.welcome a)) ++ rest) = true.
Proof.
  intros Hrest.
  destruct (welcome_starts a) as [-> | (conn & addr & [-> | ->])];
    cbn [app paired].
  - exact Hrest.
  - destruct rest as [| c rest']; [reflexivity |].
    destruct c as [| | | | | | | wk c' a' d |]; try discriminate.
    destruct wk; [exact Hrest | discriminate].
  - rewrite Nat.eqb_refl, address_eqb_refl. exact Hrest.
Qed.

Lemma accept_loop_paired (arrivals : list Listener.arrival) :
  paired (filter is_start (fst (Listener.accept_loop arrivals))) = true.
Proof.
  induction arrivals as [| a arrivals IH]; [reflexivity |].
  cbn [Listener.accept_loop].
  pose proof (paired_round a) as Hr.
  destruct (Listener.welcome a) as [t [e |]]; cbn [fst] in Hr.
  - rewrite every_exception_is_caught.
    destruct (Listener.accept_loop arrivals) as [t' s]. cbn [fst] in *.
    rewrite filter_app. cbn [filter is_start]. apply Hr. exact IH.
  - destruct (Listener.accept_loop arrivals) as [t' s]. cbn [fst] in *.
    rewrite filter_app. apply Hr. exact IH.
Qed.

Lemma perform_starts (steps : list (Listener.call * outcome unit)) :
  Forall (fun s => is_start (fst s) = false) steps ->
  filter is_start (fst (Listener.perform steps)) = [].
Proof.
  induction 1 as [| [c o] steps Hc _ IH]; [reflexivity |].
  cbn [fst] in Hc. cbn [Listener.perform].
  destruct o as [u | e].
  - destruct (Listener.perform steps) as [t r]. cbn [fst filter] in *.
    rewrite Hc. exact IH.
  - cbn [fst filter]. rewrite Hc. reflexivity.
Qed.

(** X15 (workers are started reader first, writer next).  In every run of
    the listener the calls of [Thread.start] come, connection by
    connection, as the reader's alone or as the reader's followed at once
    by the writer's for the same connection and address, all on daemon
    threads: [start] is never called for a writer unless it was called
    for the reader of the same connection just before. *)
Theorem workers_start_in_pairs (w : Listener.listener_world) :
  paired (filter is_start (fst (Listener.start_server w))) = true.
Proof.
  unfold Listener.start_server.
  match goal with
  | |- context [Listener.perform ?steps] =>
      pose proof (perform_starts steps) as H;
      destruct (Listener.perform steps) as [t r]
  end.
  cbn [fst] in H.
  assert (Ht : filter is_start t = []) by (apply H; repeat constructor).
  destruct r as [e |]; cbn [fst]; [rewrite Ht; reflexivity |].
  destruct (Listener.l_getsockname w) as [name | e]; cbn [fst].
  - pose proof (accept_loop_paired (Listener.l_arrivals w)) as Hp.
    destruct (Listener.accept_loop (Listener.l_arrivals w)) as [t' s].
    cbn [fst] in *. rewrite filter_app, Ht. exact Hp.
  - rewrite filter_app, Ht. reflexivity.
Qed.

(** ** The hypotheses above on examples *)

Lemma chunks_as_one_text_witness :
  let chunks := [sent "{'type':'hea"; sent "rtbeat'}" ++ [x0a] ++ sent "42";
                 [x0a] ++ sent "{'type':'ping'}" ++ [x0a]] in
  let whole := extract json_loads peer (List.concat (map decode_ignore chunks)) in
  let r := read_loop json_loads peer (map (@Returns bytes) chunks) [] in
  Forall (fun c => truthy (decode_ignore c) = true) chunks /\
  seen r = bound whole /\
  output (trace r) = did whole.
Proof.
  intros chunks whole r.
  assert (H : Forall (fun c => truthy (decode_ignore c) = true) chunks)
    by (repeat constructor).
  destruct (chunks_as_one_text json_loads peer chunks H) as (A & B & _).
  exact (conj H (conj A B)).
Defined.

Lemma ascii_chunks_as_one_text_witness :
  let chunks := [[x7b; x7d]; [x0a; x34]; [x32; x0a; x7b]] in
  let whole := extract json_loads peer (decode_ignore (List.concat chunks)) in
  let r := read_loop json_loads peer (map (@Returns bytes) chunks) [] in
  Forall (fun b => (Byte.to_N b < 128)%N) (List.concat chunks) /\
  Forall (fun c => c <> []) chunks /\
  seen r = bound whole /\
  output (trace r) = did whole.
Proof.
  intros chunks whole r.
  assert (H1 : Forall (fun b => (Byte.to_N b < 128)%N) (List.concat chunks))
    by (repeat constructor).
  assert (H2 : Forall (fun c => c <> []) chunks)
    by (repeat (constructor; [discriminate |]); constructor).
  destruct (ascii_chunks_as_one_text json_loads peer chunks H1 H2) as (A & B & _).
  exact (conj H1 (conj H2 (conj A B))).
Defined.

Lemma keepalive_parameters_are_optional_witness :
  let refused := Raises (Raise OSError (lit "[Errno 92] Protocol not available")) in
  let recvs := [Returns (sent "{'type':'heartbeat'}" ++ [x0a])] in
  let w := ReaderWorld (Returns tt) (Returns tt) (Returns tt) refused
             (Returns tt) recvs (Returns tt) in
  tolerated (r_keepidle w) = true /\
  tolerated (r_keepintvl w) = true /\
  tolerated (r_keepcnt w) = true /\
  traffic (trace (read json_loads peer w)) =
    traffic (trace (read json_loads peer (plain recvs))).
Proof.
  intros refused recvs w.
  assert (H1 : tolerated (r_keepidle w) = true) by reflexivity.
  assert (H2 : tolerated (r_keepintvl w) = true) by reflexivity.
  assert (H3 : tolerated (r_keepcnt w) = true) by reflexivity.
  exact (conj H1 (conj H2 (conj H3
           (proj1 (keepalive_parameters_are_optional json_loads peer w H1 H2 H3))))).
Defined.

Lemma failed_setup_ends_reader_witness :
  let e := Raise OSError (lit "[Errno 9] Bad file descriptor") in
  let w := ReaderWorld (Returns tt) (Raises e) (Returns tt) (Returns tt)
             (Returns tt) [Returns (sent "{'type':'heartbeat'}" ++ [x0a])]
             (Returns tt) in
  setup_failure w = Some e /\
  exists calls,
    read json_loads peer w =
      Run (calls ++ [Print (read_error_log peer e); Close;
                     Print (closed_log peer)]) [] Returned /\
    existsb is_recv calls = false /\
    existsb is_print calls = false.
Proof.
  intros e w.
  assert (H : setup_failure w = Some e) by reflexivity.
  exact (conj H (failed_setup_ends_reader json_loads peer w e H)).
Defined.

Lemma peer_shutdown_ends_reader_witness :
  let prior := [Returns (sent "{'type':'heartbeat'}" ++ [x0a] ++ sent "{'ty")] in
  let log := [Text "[INFO] Heartbeat from "; FAddr peer; Text " (login: ";
              FValue (PStr (lit "unknown")); Text ")"] in
  let t := [Recv 1024; Print log] in
  let ls := [quoted "{'type':'heartbeat'}"] in
  read_loop json_loads peer prior [] = Run t ls (InRecv (quoted "{'ty")) /\
  decode_ignore [] = [] /\
  read json_loads peer (plain (prior ++ [Returns []])) =
    Run (prepared ++ t ++ [Recv 1024; Close; Print (closed_log peer)]) ls Returned.
Proof.
  intros prior log t ls.
  assert (H1 : read_loop json_loads peer prior [] =
               Run t ls (InRecv (quoted "{'ty"))) by (vm_compute; reflexivity).
  assert (H2 : decode_ignore [] = []) by reflexivity.
  exact (conj H1 (conj H2
           (peer_shutdown_ends_reader json_loads peer prior [] [] (Returns tt)
              t ls (quoted "{'ty") H1 H2))).
Defined.

Lemma peer_reset_ends_reader_witness :
  let prior := [Returns (sent "{'type':'heartbeat'}" ++ [x0a] ++ sent "{'ty")] in
  let log := [Text "[INFO] Heartbeat from "; FAddr peer; Text " (login: ";
              FValue (PStr (lit "unknown")); Text ")"] in
  let t := [Recv 1024; Print log] in
  let ls := [quoted "{'type':'heartbeat'}"] in
  let e := Raise ConnectionResetError (lit "[Errno 104] Connection reset by peer") in
  read_loop json_loads peer prior [] = Run t ls (InRecv (quoted "{'ty")) /\
  read json_loads peer (plain (prior ++ [Raises e])) =
    Run (prepared ++ t ++
         [Recv 1024; Print [Text "[INFO] Connection reset by "; FAddr peer];
          Close; Print (closed_log peer)]) ls Returned.
Proof.
  intros prior log t ls e.
  assert (H1 : read_loop json_loads peer prior [] =
               Run t ls (InRecv (quoted "{'ty"))) by (vm_compute; reflexivity).
  exact (conj H1
           (proj1 (peer_reset_ends_reader json_loads peer prior []
                     (lit "[Errno 104] Connection reset by peer") (Returns tt)
                     t ls (quoted "{'ty") H1))).
Defined.

Lemma other_failure_ends_reader_witness :
  let prior := [Returns (sent "{'type':'heartbeat'}" ++ [x0a] ++ sent "{'ty")] in
  let log := [Text "[INFO] Heartbeat from "; FAddr peer; Text " (login: ";
              FValue (PStr (lit "unknown")); Text ")"] in
  let t := [Recv 1024; Print log] in
  let ls := [quoted "{'type':'heartbeat'}"] in
  let e := Raise OSError (lit "[Errno 9] Bad file descriptor") in
  read_loop json_loads peer prior [] = Run t ls (InRecv (quoted "{'ty")) /\
  caught_by e socket_timeout = false /\
  caught_by e ConnectionResetError = false /\
  caught_by e BrokenPipeError = false /\
  read json_loads peer (plain (prior ++ [Raises e])) =
    Run (prepared ++ t ++
         [Recv 1024;
          Print [Text "[ERROR] read from "; FAddr peer; Text " -> "; FExn e];
          Close; Print (closed_log peer)]) ls Returned.
Proof.
  intros prior log t ls e.
  assert (H1 : read_loop json_loads peer prior [] =
               Run t ls (InRecv (quoted "{'ty"))) by (vm_compute; reflexivity).
  assert (H2 : caught_by e socket_timeout = false) by reflexivity.
  assert (H3 : caught_by e ConnectionResetError = false) by reflexivity.
  assert (H4 : caught_by e BrokenPipeError = false) by reflexivity.
  exact (conj H1 (conj H2 (conj H3 (conj H4
           (other_failure_ends_reader json_loads peer prior [] e (Returns tt)
              t ls (quoted "{'ty") H1 H2 H3 H4))))).
Defined.
